(** * Opening ports on Azure network security groups

    A shallow embedding of [sky/provision/azure/instance.py]:
    [get_azure_sdk_function], [open_ports] and [cleanup_ports], together
    with a small model of the objects they touch (the SDK client object,
    the remote store of network security groups, the logger).

    Python integers are [Z], strings are [string], lists are [list],
    dictionaries and attribute tables are [gmap string _].  Exceptions are
    an inductive type and effectful code lives in a state-and-exception
    monad over the remote store and an event trace. *)

From Stdlib Require Import ZArith Ascii String.
From stdpp Require Import base option list strings gmap.

Local Open Scope string_scope.
Local Open Scope list_scope.
Local Open Scope Z_scope.

(** ** Data model *)

(** The attributes of an SDK [SecurityRule] that the module reads or
    writes.  [direction], [protocol] and [access] stay strings, as the
    source compares and passes string literals. *)
Record SecurityRule := mkRule {
  name : string;
  priority : Z;
  protocol : string;
  access : string;
  direction : string;
  source_address_prefix : string;
  source_port_range : string;
  destination_address_prefix : string;
  destination_port_ranges : list string
}.

(** An SDK [NetworkSecurityGroup]: [nsg.name] and [nsg.security_rules]. *)
Record NSG := mkNSG {
  nsg_name : string;
  security_rules : list SecurityRule
}.

(** ** Python values, objects and exceptions *)

(** The operations a network-security-groups client can expose. *)
Inductive sdk_op := OpList | OpCreateOrUpdate.

(** Attribute values of a client object. *)
Inductive pyval :=
  | PyNone
  | PyStr (s : string)
  | PyOp (op : sdk_op).

(** A Python object: the name of its type and its attribute table. *)
Record pyobj := mkObj {
  py_type : string;
  py_attrs : gmap string pyval
}.

Inductive exn :=
  | AssertionError (msg : string)
  | KeyError (key : string)
  | AttributeError (msg : string)
  | TypeError (msg : string)
  | HttpResponseError (msg : string).

Inductive result (A : Type) :=
  | Ok (a : A)
  | Raise (e : exn).
Arguments Ok {A} a.
Arguments Raise {A} e.

(** [getattr(obj, attr, default)]. *)
Definition getattr_default (obj : pyobj) (attr : string) (default : pyval) : pyval :=
  match py_attrs obj !! attr with
  | Some v => v
  | None => default
  end.

(** [obj.attr]: a missing attribute raises CPython's [AttributeError]. *)
Definition getattr (obj : pyobj) (attr : string) : result pyval :=
  match py_attrs obj !! attr with
  | Some v => Ok v
  | None =>
      Raise (AttributeError
               ("'" +:+ py_type obj +:+ "' object has no attribute '" +:+ attr +:+ "'"))
  end.

(** [repr] of a [str], for strings of printable ASCII characters: single
    quotes unless the string holds a single quote and no double quote;
    the backslash and the chosen quote are escaped. *)
Definition dquote : ascii := "034"%char.
Definition backslash : ascii := "092"%char.

Definition has_char (c : ascii) (s : string) : bool :=
  existsb (Ascii.eqb c) (list_ascii_of_string s).

Fixpoint escape (q : ascii) (s : string) : string :=
  match s with
  | EmptyString => EmptyString
  | String c s' =>
      if Ascii.eqb c backslash || Ascii.eqb c q
      then String backslash (String c (escape q s'))
      else String c (escape q s')
  end.

Definition repr_str (s : string) : string :=
  let q := if has_char "'"%char s && negb (has_char dquote s)
           then dquote else "'"%char in
  String q (escape q s) +:+ String q EmptyString.

Definition sdk_op_name (op : sdk_op) : string :=
  match op with
  | OpList => "list"
  | OpCreateOrUpdate => "create_or_update"
  end.

(** [repr] of an attribute value; for a bound method the receiver and its
    address are left out. *)
Definition repr (v : pyval) : string :=
  match v with
  | PyNone => "None"
  | PyStr s => repr_str s
  | PyOp op => "<bound method " +:+ sdk_op_name op +:+ ">"
  end.

(** [str] of a list of strings, as an f-string prints it. *)
Fixpoint join (sep : string) (l : list string) : string :=
  match l with
  | [] => EmptyString
  | [x] => x
  | x :: l' => x +:+ sep +:+ join sep l'
  end.

Definition str_list (l : list string) : string :=
  "[" +:+ join ", " (map repr_str l) +:+ "]".

(** ** [get_azure_sdk_function] *)

(** The message built at lines 25-27.  [{client.__name__}] is a set
    display, so the attribute lookup happens first (and may raise) and the
    set of one element is printed between braces. *)
Definition no_function_message (client : pyobj) (function_name : string) : result string :=
  match getattr client "__name__" with
  | Raise e => Raise e
  | Ok n =>
      Ok (String dquote "{" +:+ repr n +:+ "}" +:+ String dquote " object has no "
          +:+ function_name
          +:+ " or begin_" +:+ function_name +:+ " attribute")
  end.

Definition get_azure_sdk_function (client : pyobj) (function_name : string) : result pyval :=
  let func := getattr_default client function_name
                (getattr_default client ("begin_" +:+ function_name) PyNone) in
  match func with
  | PyNone =>
      match no_function_message client function_name with
      | Raise e => Raise e
      | Ok msg => Raise (AttributeError msg)
      end
  | _ => Ok func
  end.

(** ** The scan of one security group (lines 53-75) *)

(** [rule.destination_port_ranges.extend(ports)]: the list of the rule
    grows in place, every other attribute of the rule is left alone. *)
Definition extend_ports (rule : SecurityRule) (ports : list string) : SecurityRule :=
  {| name := name rule;
     priority := priority rule;
     protocol := protocol rule;
     access := access rule;
     direction := direction rule;
     source_address_prefix := source_address_prefix rule;
     source_port_range := source_port_range rule;
     destination_address_prefix := destination_address_prefix rule;
     destination_port_ranges := destination_port_ranges rule ++ ports |}.

(** The [for rule in nsg.security_rules] loop, started with the current
    value of [max_inbound_priority].  It returns the final
    [max_inbound_priority], [rule_exist] and the rule list after the
    in-place extension; [break] leaves the rules behind the match unread. *)
Fixpoint scan_rules (rule_name : string) (ports : list string)
    (max_inbound_priority : Z) (rules : list SecurityRule)
    : Z * bool * list SecurityRule :=
  match rules with
  | [] => (max_inbound_priority, false, [])
  | rule :: rest =>
      let max_inbound_priority :=
        if String.eqb (direction rule) "Inbound"
        then Z.max max_inbound_priority (priority rule)
        else max_inbound_priority in
      if String.eqb (name rule) rule_name
      then (max_inbound_priority, true, extend_ports rule ports :: rest)
      else
        let '(m, rule_exist, rest') :=
          scan_rules rule_name ports max_inbound_priority rest in
        (m, rule_exist, rule :: rest')
  end.

(** Modelled from the spec: [azure.create_security_rule] lives in
    [sky/adaptors/azure.py], outside [sky/provision/azure/instance.py]; it
    builds the SDK rule from its keyword arguments, one attribute each. *)
Definition create_security_rule (name : string) (priority : Z)
    (protocol access direction : string)
    (source_address_prefix source_port_range destination_address_prefix : string)
    (destination_port_ranges : list string) : SecurityRule :=
  mkRule name priority protocol access direction source_address_prefix
         source_port_range destination_address_prefix destination_port_ranges.

(** [rule_name = f'sky-ports-{cluster_name_on_cloud}'] *)
Definition rule_name_of (cluster_name_on_cloud : string) : string :=
  "sky-ports-" +:+ cluster_name_on_cloud.

(** Lines 53-75: the group as it is handed to [create_or_update]. *)
Definition reconcile_nsg (rule_name : string) (ports : list string) (nsg : NSG) : NSG :=
  let '(max_inbound_priority, rule_exist, rules) :=
    scan_rules rule_name ports 0 (security_rules nsg) in
  if rule_exist
  then mkNSG (nsg_name nsg) rules
  else mkNSG (nsg_name nsg)
         (rules ++ [create_security_rule rule_name (max_inbound_priority + 1)
                      "Tcp" "Allow" "Inbound" "*" "*" "*" ports]).

(** ** The remote store, the logger and the monad of effects *)

(** What the outside world sees of a call: the requests to the store and
    the warnings of the logger, oldest first. *)
Inductive event :=
  | StoreList (resource_group : string)
  | StoreCreateOrUpdate (resource_group group_name : string) (body : NSG)
  | LogWarning (msg : string).

(** The security groups of each resource group, in listing order, and the
    trace so far.  The store is remote: groups cross the wire as values,
    so nothing in it aliases a list of the caller. *)
Record state := mkState {
  store : gmap string (list NSG);
  trace : list event
}.

(** The collaborators [open_ports] is given: the
    [network_security_groups] attribute of
    [azure.get_client('network', subscription_id)], and the platform's
    verdict on a create-or-update request ([Some e]: rejected with HTTP
    error [e]). *)
Record env := mkEnv {
  network_security_groups : string -> pyobj;
  http_error : string -> string -> NSG -> option string
}.

Definition M (A : Type) : Type := state -> result A * state.

Definition ret {A} (a : A) : M A := fun s => (Ok a, s).
Definition raise {A} (e : exn) : M A := fun s => (Raise e, s).
Definition bind {A B} (m : M A) (k : A -> M B) : M B :=
  fun s => match m s with
           | (Ok a, s') => k a s'
           | (Raise e, s') => (Raise e, s')
           end.
Definition lift {A} (r : result A) : M A := fun s => (r, s).
Definition emit (ev : event) : M unit :=
  fun s => (Ok tt, mkState (store s) (trace s ++ [ev])).

Notation "'do' x <- m ; k" := (bind m (fun x => k))
  (at level 10, x name, m at level 100, k at level 200).
Notation "'do_' m ; k" := (bind m (fun _ => k))
  (at level 10, m at level 100, k at level 200).

(** [try: body except azure.http_error_exception() as e: handler(e)];
    every other exception passes through. *)
Definition try_except_http {A} (body : M A) (handler : string -> M A) : M A :=
  fun s => match body s with
           | (Raise (HttpResponseError e), s') => handler e s'
           | r => r
           end.

(** [for x in l: body(x)] *)
Fixpoint for_each {A} (l : list A) (body : A -> M unit) : M unit :=
  match l with
  | [] => ret tt
  | x :: l' => do_ body x; for_each l' body
  end.

(** [d[key]] on a dictionary. *)
Definition subscript (d : gmap string string) (key : string) : M string :=
  match d !! key with
  | Some v => ret v
  | None => raise (KeyError key)
  end.

Definition groups_of (st : gmap string (list NSG)) (resource_group : string) : list NSG :=
  default [] (st !! resource_group).

(** Full replacement of the group called [group_name]; a group the store
    does not know yet is created. *)
Fixpoint upsert (group_name : string) (body : NSG) (l : list NSG) : list NSG :=
  match l with
  | [] => [body]
  | g :: l' =>
      if String.eqb (nsg_name g) group_name
      then body :: l'
      else g :: upsert group_name body l'
  end.

(** Calling the value resolved for [list] with one argument.  The loop
    walks the listing as it is when the loop starts. *)
Definition call_list (f : pyval) (resource_group : string) : M (list NSG) :=
  match f with
  | PyOp OpList =>
      do_ emit (StoreList resource_group);
      fun s => (Ok (groups_of (store s) resource_group), s)
  | PyOp OpCreateOrUpdate =>
      raise (TypeError "create_or_update() missing 2 required positional arguments")
  | PyStr _ => raise (TypeError "'str' object is not callable")
  | PyNone => raise (TypeError "'NoneType' object is not callable")
  end.

(** Calling the value resolved for [create_or_update] with three
    arguments.  A rejected request leaves the store as it was. *)
Definition call_create_or_update (E : env) (f : pyval)
    (resource_group group_name : string) (body : NSG) : M unit :=
  match f with
  | PyOp OpCreateOrUpdate =>
      do_ emit (StoreCreateOrUpdate resource_group group_name body);
      match http_error E resource_group group_name body with
      | Some e => raise (HttpResponseError e)
      | None =>
          fun s => (Ok tt,
                    mkState (<[resource_group :=
                                 upsert group_name body (groups_of (store s) resource_group)]>
                               (store s))
                            (trace s))
      end
  | PyOp OpList =>
      raise (TypeError "list() takes 2 positional arguments but 4 were given")
  | PyStr _ => raise (TypeError "'str' object is not callable")
  | PyNone => raise (TypeError "'NoneType' object is not callable")
  end.

(** ** [open_ports] and [cleanup_ports] *)

Definition warning_message (ports : list string) (nsg : NSG) (e : string) : string :=
  "Failed to open ports " +:+ str_list ports +:+ " in NSG " +:+ nsg_name nsg
  +:+ ": " +:+ e.

(** The body of the [for nsg in ...] loop, lines 49-79. *)
Definition open_ports_in_nsg (E : env) (update_network_security_groups : pyval)
    (resource_group rule_name : string) (ports : list string) (nsg : NSG) : M unit :=
  try_except_http
    (let nsg' := reconcile_nsg rule_name ports nsg in
     call_create_or_update E update_network_security_groups
       resource_group (nsg_name nsg') nsg')
    (fun e => emit (LogWarning (warning_message ports nsg e))).

Definition open_ports (E : env) (cluster_name_on_cloud : string)
    (ports : list string) (provider_config : option (gmap string string)) : M unit :=
  match provider_config with
  | None => raise (AssertionError cluster_name_on_cloud)
  | Some config =>
      do subscription_id <- subscript config "subscription_id";
      do resource_group <- subscript config "resource_group";
      let client := network_security_groups E subscription_id in
      do update_network_security_groups <-
        lift (get_azure_sdk_function client "create_or_update");
      do list_network_security_groups <-
        lift (get_azure_sdk_function client "list");
      let rule_name := rule_name_of cluster_name_on_cloud in
      do nsgs <- call_list list_network_security_groups resource_group;
      for_each nsgs
        (open_ports_in_nsg E update_network_security_groups
           resource_group rule_name ports)
  end.

(** [cleanup_ports]: the arguments are dropped, nothing is done. *)
Definition cleanup_ports (cluster_name_on_cloud : string)
    (provider_config : option (gmap string string)) : M unit :=
  ret tt.

(** ** Notions used to state the properties *)

(** The priorities of the Inbound rules of a group, in rule order. *)
Fixpoint inbound_priorities (rules : list SecurityRule) : list Z :=
  match rules with
  | [] => []
  | rule :: rest =>
      if String.eqb (direction rule) "Inbound"
      then priority rule :: inbound_priorities rest
      else inbound_priorities rest
  end.

(** The largest element of [l] and [m]. *)
Definition max_from (m : Z) (l : list Z) : Z := foldr Z.max m l.

(** In the words of the specification: the maximum priority over all
    Inbound rules of the group, 0 if there is none. *)
Definition spec_max_inbound_priority (rules : list SecurityRule) : Z :=
  match inbound_priorities rules with
  | [] => 0
  | p :: ps => max_from p ps
  end.

(** Within a group, no two inbound rules share a priority. *)
Definition inbound_priorities_unique (rules : list SecurityRule) : Prop :=
  NoDup (inbound_priorities rules).

(** The first rule of the group that carries a given name. *)
Definition find_rule (rule_name : string) (rules : list SecurityRule)
    : option SecurityRule :=
  List.find (fun rule => String.eqb (name rule) rule_name) rules.

(** The Inbound rules of the group that carry a given name. *)
Definition inbound_rules_named (rule_name : string) (rules : list SecurityRule)
    : list SecurityRule :=
  List.filter
    (fun rule => String.eqb (name rule) rule_name
                 && String.eqb (direction rule) "Inbound") rules.

(** What one pass of the loop body leaves in the store for a group: the
    reconciled group when the platform takes the request, the old group
    when it answers with an HTTP error. *)
Definition stored_after (E : env) (resource_group rule_name : string)
    (ports : list string) (nsg : NSG) : NSG :=
  let nsg' := reconcile_nsg rule_name ports nsg in
  match http_error E resource_group (nsg_name nsg') nsg' with
  | Some _ => nsg
  | None => nsg'
  end.

(** The events of one pass of the loop body. *)
Definition events_of (E : env) (resource_group rule_name : string)
    (ports : list string) (nsg : NSG) : list event :=
  let nsg' := reconcile_nsg rule_name ports nsg in
  StoreCreateOrUpdate resource_group (nsg_name nsg') nsg'
  :: match http_error E resource_group (nsg_name nsg') nsg' with
     | Some e => [LogWarning (warning_message ports nsg e)]
     | None => []
     end.

(** A configuration and a client are usable when both keys are there and
    both operations resolve to what their names say. *)
Definition ready (E : env) (config : gmap string string)
    (subscription_id resource_group : string) : Prop :=
  config !! "subscription_id" = Some subscription_id
  /\ config !! "resource_group" = Some resource_group
  /\ get_azure_sdk_function (network_security_groups E subscription_id)
       "create_or_update" = Ok (PyOp OpCreateOrUpdate)
  /\ get_azure_sdk_function (network_security_groups E subscription_id)
       "list" = Ok (PyOp OpList).

(** ** Sample data *)

Definition default_allow_ssh : SecurityRule :=
  mkRule "default-allow-ssh" 100 "Tcp" "Allow" "Inbound" "*" "*" "*" ["22"].

Definition nsg_A : NSG := mkNSG "nsg-A" [default_allow_ssh].

(** A group whose only Inbound rule sits at a negative priority. *)
Definition nsg_below_zero : NSG :=
  mkNSG "nsg-B" [mkRule "legacy" (-5) "Tcp" "Deny" "Inbound" "*" "*" "*" ["23"]].

(** A group where the rule of cluster [c1] was set up as Outbound. *)
Definition outbound_c1 : SecurityRule :=
  mkRule "sky-ports-c1" 200 "Tcp" "Allow" "Outbound" "*" "*" "*" ["443"].

Definition nsg_outbound : NSG := mkNSG "nsg-C" [default_allow_ssh; outbound_c1].

(** A group that holds an Inbound rule of cluster [c1] in front of the
    Outbound one. *)
Definition inbound_c1 : SecurityRule :=
  mkRule "sky-ports-c1" 300 "Tcp" "Allow" "Inbound" "*" "*" "*" ["80"].

Definition nsg_both_directions : NSG := mkNSG "nsg-D" [inbound_c1; outbound_c1].

(** Three groups in one resource group, behind a client of the newer SDK
    generation; the platform turns down the requests for the group names
    it is given. *)
Definition sdk_client : pyobj :=
  mkObj "NetworkSecurityGroupsOperations"
    (<["begin_create_or_update" := PyOp OpCreateOrUpdate]>
       (<["list" := PyOp OpList]> ∅)).

Definition platform (rejected : list string) : env :=
  mkEnv (fun _ => sdk_client)
        (fun _ group_name _ =>
           if existsb (String.eqb group_name) rejected
           then Some "409 Conflict" else None).

Definition config_1 : gmap string string :=
  <["subscription_id" := "sub-1"]> (<["resource_group" := "rg-1"]> ∅).

Definition G1 : NSG := mkNSG "G1" [default_allow_ssh].
Definition G2 : NSG := mkNSG "G2" [].
Definition G3 : NSG := mkNSG "G3" [default_allow_ssh; outbound_c1].

Definition state_1 : state := mkState (<["rg-1" := [G1; G2; G3]]> ∅) [].

(** An operations object that exposes no operation at all; like every
    ordinary instance it has no [__name__]. *)
Definition bare_client : pyobj := mkObj "NetworkSecurityGroupsOperations" ∅.

(** The destination ports the cluster's rule has in a group, none when
    the group has no such rule. *)
Definition ports_before (rule_name : string) (nsg : NSG) : list string :=
  match find_rule rule_name (security_rules nsg) with
  | Some r => destination_port_ranges r
  | None => []
  end.

(** [contains needle s]: [needle] occurs in [s]. *)
Fixpoint contains (needle s : string) : bool :=
  String.prefix needle s
  || match s with
     | EmptyString => false
     | String _ s' => contains needle s'
     end.

(** ** Notions for the trace and for what a scan leaves alone *)

Definition is_warning (ev : event) : bool :=
  match ev with
  | LogWarning _ => true
  | _ => false
  end.

(** The requests to the store among some events, and the warnings. *)
Definition store_requests (tr : list event) : list event :=
  List.filter (fun ev => negb (is_warning ev)) tr.

Definition warnings (tr : list event) : list event :=
  List.filter is_warning tr.

(** The warning one pass of the loop body logs, if any. *)
Definition warning_of (E : env) (resource_group rule_name : string)
    (ports : list string) (nsg : NSG) : list event :=
  let nsg' := reconcile_nsg rule_name ports nsg in
  match http_error E resource_group (nsg_name nsg') nsg' with
  | Some e => [LogWarning (warning_message ports nsg e)]
  | None => []
  end.

(** [r'] is [r] with, at most, more destination ports behind the ones it
    had. *)
Definition grown (r r' : SecurityRule) : Prop :=
  name r' = name r
  /\ priority r' = priority r
  /\ protocol r' = protocol r
  /\ access r' = access r
  /\ direction r' = direction r
  /\ source_address_prefix r' = source_address_prefix r
  /\ source_port_range r' = source_port_range r
  /\ destination_address_prefix r' = destination_address_prefix r
  /\ destination_port_ranges r `prefix_of` destination_port_ranges r'.

(** Clients for the corner cases of the resolution: both names present,
    the plain name present but [None], and a class-like client that has a
    [__name__] and no operation. *)
Definition both_names_client : pyobj :=
  mkObj "Operations"
    (<["list" := PyOp OpList]> (<["begin_list" := PyOp OpCreateOrUpdate]> ∅)).

Definition none_valued_client : pyobj :=
  mkObj "Operations"
    (<["list" := PyNone]> (<["begin_list" := PyOp OpList]> ∅)).

Definition class_client : pyobj :=
  mkObj "type" (<["__name__" := PyStr "Operations"]> ∅).

(** A configuration that lacks both keys. *)
Definition config_empty : gmap string string := ∅.

(** The rules of a group that carry a given name. *)
Definition rules_named (rule_name : string) (rules : list SecurityRule)
    : list SecurityRule :=
  List.filter (fun rule => String.eqb (name rule) rule_name) rules.

(** * Properties *)

(** ** The scan *)

Lemma max_from_le (m : Z) (l : list Z) : m <= max_from m l.
Proof. induction l as [|p l IH]; simpl; lia. Qed.

Lemma max_from_ge (m : Z) (l : list Z) (p : Z) : p ∈ l -> p <= max_from m l.
Proof.
  induction l as [|q l IH]; intros Hp.
  - by apply elem_of_nil in Hp.
  - apply elem_of_cons in Hp as [->|Hp]; simpl; [lia|].
    specialize (IH Hp). lia.
Qed.

Lemma max_from_shift (m p : Z) (l : list Z) :
  max_from (Z.max m p) l = Z.max p (max_from m l).
Proof. induction l as [|q l IH]; simpl; [lia|]. rewrite IH. lia. Qed.

Lemma max_from_zero_spec (rules : list SecurityRule) :
  max_from 0 (inbound_priorities rules)
  = Z.max 0 (spec_max_inbound_priority rules).
Proof.
  unfold spec_max_inbound_priority.
  destruct (inbound_priorities rules) as [|p ps]; [done|].
  simpl. rewrite <- !max_from_shift. by rewrite Z.max_comm.
Qed.

Lemma inbound_priorities_app (l1 l2 : list SecurityRule) :
  inbound_priorities (l1 ++ l2) = inbound_priorities l1 ++ inbound_priorities l2.
Proof.
  induction l1 as [|r l1 IH]; [done|]. simpl.
  destruct (String.eqb (direction r) "Inbound"); simpl; by rewrite IH.
Qed.

Lemma inbound_priorities_elem (rules : list SecurityRule) (q : SecurityRule) :
  q ∈ rules -> direction q = "Inbound" -> priority q ∈ inbound_priorities rules.
Proof.
  induction rules as [|r rules IH]; intros Hq Hd.
  - by apply elem_of_nil in Hq.
  - simpl. apply elem_of_cons in Hq as [<-|Hq].
    + rewrite Hd. simpl. apply list_elem_of_here.
    + destruct (String.eqb (direction r) "Inbound");
        [apply list_elem_of_further|]; by apply IH.
Qed.

Lemma inbound_priorities_extend (r : SecurityRule) (ports : list string)
    (pre post : list SecurityRule) :
  inbound_priorities (pre ++ extend_ports r ports :: post)
  = inbound_priorities (pre ++ r :: post).
Proof. by rewrite !inbound_priorities_app. Qed.

(** No rule carries the name: the loop runs to its end, nothing is
    touched and the maximum covers every Inbound rule. *)
Lemma scan_rules_absent (rule_name : string) (ports : list string)
    (m : Z) (rules : list SecurityRule) :
  Forall (fun r => name r <> rule_name) rules ->
  scan_rules rule_name ports m rules
  = (max_from m (inbound_priorities rules), false, rules).
Proof.
  revert m. induction rules as [|r rules IH]; intros m Hno; [done|].
  apply Forall_cons in Hno as [Hr Hno]. simpl.
  apply String.eqb_neq in Hr. rewrite Hr.
  destruct (String.eqb (direction r) "Inbound"); rewrite (IH _ Hno); [|done].
  simpl. by rewrite max_from_shift.
Qed.

(** A rule carries the name: the first such rule is extended and the
    loop stops there. *)
Lemma scan_rules_present (rule_name : string) (ports : list string)
    (m : Z) (pre post : list SecurityRule) (r : SecurityRule) :
  Forall (fun q => name q <> rule_name) pre ->
  name r = rule_name ->
  scan_rules rule_name ports m (pre ++ r :: post)
  = (max_from m (inbound_priorities (pre ++ [r])), true,
     pre ++ extend_ports r ports :: post).
Proof.
  revert m. induction pre as [|q pre IH]; intros m Hno Hr.
  - simpl. apply String.eqb_eq in Hr. rewrite Hr.
    destruct (String.eqb (direction r) "Inbound"); simpl; [|done].
    by rewrite Z.max_comm.
  - apply Forall_cons in Hno as [Hq Hno]. simpl.
    apply String.eqb_neq in Hq. rewrite Hq.
    destruct (String.eqb (direction q) "Inbound"); rewrite (IH _ Hno Hr); [|done].
    simpl. by rewrite max_from_shift.
Qed.

(** Either no rule carries the name or there is a first one. *)
Lemma first_named (rule_name : string) (rules : list SecurityRule) :
  Forall (fun r => name r <> rule_name) rules
  \/ exists pre r post,
       rules = pre ++ r :: post
       /\ Forall (fun q => name q <> rule_name) pre
       /\ name r = rule_name.
Proof.
  induction rules as [|q rules IH]; [by left|].
  destruct (String.eqb_spec (name q) rule_name) as [Hq|Hq].
  - right. by exists [], q, rules.
  - destruct IH as [Hno|(pre & r & post & -> & Hpre & Hr)].
    + left. by apply Forall_cons.
    + right. exists (q :: pre), r, post. split; [done|].
      split; [by apply Forall_cons|done].
Qed.

Lemma find_rule_first (rule_name : string) (pre post : list SecurityRule)
    (r : SecurityRule) :
  Forall (fun q => name q <> rule_name) pre ->
  name r = rule_name ->
  find_rule rule_name (pre ++ r :: post) = Some r.
Proof.
  intros Hpre Hr. unfold find_rule.
  induction pre as [|q pre IH]; simpl.
  - apply String.eqb_eq in Hr. by rewrite Hr.
  - apply Forall_cons in Hpre as [Hq Hpre].
    apply String.eqb_neq in Hq. rewrite Hq. by apply IH.
Qed.

Lemma find_rule_absent (rule_name : string) (rules : list SecurityRule) :
  Forall (fun q => name q <> rule_name) rules ->
  find_rule rule_name rules = None.
Proof.
  intros Hno. unfold find_rule.
  induction rules as [|q rules IH]; [done|]. simpl.
  apply Forall_cons in Hno as [Hq Hno].
  apply String.eqb_neq in Hq. rewrite Hq. by apply IH.
Qed.

Lemma find_rule_split (rule_name : string) (rules : list SecurityRule)
    (r : SecurityRule) :
  find_rule rule_name rules = Some r ->
  exists pre post,
    rules = pre ++ r :: post
    /\ Forall (fun q => name q <> rule_name) pre
    /\ name r = rule_name.
Proof.
  intros Hfind.
  destruct (first_named rule_name rules)
    as [Hno|(pre & r' & post & -> & Hpre & Hr)].
  - by rewrite find_rule_absent in Hfind.
  - rewrite (find_rule_first _ _ _ _ Hpre Hr) in Hfind.
    injection Hfind as ->. by exists pre, post.
Qed.

(** ** One group *)

Lemma reconcile_nsg_absent (rule_name : string) (ports : list string) (nsg : NSG) :
  Forall (fun r => name r <> rule_name) (security_rules nsg) ->
  reconcile_nsg rule_name ports nsg
  = mkNSG (nsg_name nsg)
      (security_rules nsg
       ++ [mkRule rule_name (max_from 0 (inbound_priorities (security_rules nsg)) + 1)
             "Tcp" "Allow" "Inbound" "*" "*" "*" ports]).
Proof.
  intros Hno. unfold reconcile_nsg. by rewrite (scan_rules_absent _ _ _ _ Hno).
Qed.

Lemma reconcile_nsg_present (rule_name : string) (ports : list string) (nsg : NSG)
    (pre post : list SecurityRule) (r : SecurityRule) :
  security_rules nsg = pre ++ r :: post ->
  Forall (fun q => name q <> rule_name) pre ->
  name r = rule_name ->
  reconcile_nsg rule_name ports nsg
  = mkNSG (nsg_name nsg) (pre ++ extend_ports r ports :: post).
Proof.
  intros Hrules Hpre Hr. unfold reconcile_nsg.
  by rewrite Hrules, (scan_rules_present _ _ _ _ _ _ Hpre Hr).
Qed.

Lemma reconcile_nsg_name (rule_name : string) (ports : list string) (nsg : NSG) :
  nsg_name (reconcile_nsg rule_name ports nsg) = nsg_name nsg.
Proof.
  unfold reconcile_nsg.
  destruct (scan_rules rule_name ports 0 (security_rules nsg)) as [[m e] rules].
  by destruct e.
Qed.

(** C1 (as amended).  In a group without a rule of the given name the
    scan appends one rule; its priority is [max (0, p1, ..., pn) + 1] over
    the Inbound priorities [p1 .. pn], which is above every Inbound
    priority of the group, is 1 when the group has no Inbound rule, and
    is the maximum Inbound priority plus one whenever that maximum is not
    negative. *)
Theorem new_rule_priority (rule_name : string) (ports : list string) (nsg : NSG) :
  Forall (fun r => name r <> rule_name) (security_rules nsg) ->
  exists r,
    security_rules (reconcile_nsg rule_name ports nsg) = security_rules nsg ++ [r]
    /\ priority r = Z.max 0 (spec_max_inbound_priority (security_rules nsg)) + 1
    /\ (forall q, q ∈ security_rules nsg -> direction q = "Inbound" ->
                  priority q < priority r)
    /\ (inbound_priorities (security_rules nsg) = [] -> priority r = 1)
    /\ (0 <= spec_max_inbound_priority (security_rules nsg) ->
        priority r = spec_max_inbound_priority (security_rules nsg) + 1).
Proof.
  intros Hno. rewrite (reconcile_nsg_absent _ _ _ Hno). simpl.
  eexists. split; [reflexivity|]. simpl.
  rewrite <- max_from_zero_spec.
  split; [done|]. split; [|split].
  - intros q Hq Hd.
    pose proof (max_from_ge 0 _ _ (inbound_priorities_elem _ _ Hq Hd)). lia.
  - by intros ->.
  - rewrite max_from_zero_spec. lia.
Qed.

Lemma new_rule_priority_witness :
  Forall (fun r => name r <> "sky-ports-c1") (security_rules nsg_A)
  /\ exists r,
       security_rules (reconcile_nsg "sky-ports-c1" ["8000"] nsg_A)
       = security_rules nsg_A ++ [r]
       /\ priority r = Z.max 0 (spec_max_inbound_priority (security_rules nsg_A)) + 1
       /\ (forall q, q ∈ security_rules nsg_A -> direction q = "Inbound" ->
                     priority q < priority r)
       /\ (inbound_priorities (security_rules nsg_A) = [] -> priority r = 1)
       /\ (0 <= spec_max_inbound_priority (security_rules nsg_A) ->
           priority r = spec_max_inbound_priority (security_rules nsg_A) + 1).
Proof.
  assert (H : Forall (fun r => name r <> "sky-ports-c1") (security_rules nsg_A)).
  { apply Forall_cons. split; [discriminate|apply Forall_nil_2]. }
  split; [exact H|]. exact (new_rule_priority "sky-ports-c1" ["8000"] nsg_A H).
Defined.

(** C1 as the specification words it: the new priority would be the
    maximum Inbound priority plus one.  With a single Inbound rule at
    priority -5 the scan keeps its initial 0 and the new rule gets
    priority 1, not -4. *)
Lemma new_rule_priority_counterexample :
  ~ (forall (rule_name : string) (ports : list string) (nsg : NSG),
       Forall (fun r => name r <> rule_name) (security_rules nsg) ->
       exists r,
         security_rules (reconcile_nsg rule_name ports nsg) = security_rules nsg ++ [r]
         /\ priority r = spec_max_inbound_priority (security_rules nsg) + 1
         /\ (forall q, q ∈ security_rules nsg -> direction q = "Inbound" ->
                       priority q < priority r)
         /\ (inbound_priorities (security_rules nsg) = [] -> priority r = 1)).
Proof.
  intros Hclaim.
  destruct (Hclaim "sky-ports-c1" ["8000"] nsg_below_zero) as (r & Hrules & Hp & _).
  { apply Forall_cons. split; [discriminate|apply Forall_nil_2]. }
  vm_compute in Hrules. injection Hrules as <-.
  vm_compute in Hp. discriminate.
Qed.

(** C3.  In a group that holds a rule of the given name, the first such
    rule gets the requested ports appended to its destination ports; its
    other attributes, every other rule and the number of rules stay as
    they were. *)
Theorem existing_rule_extended (rule_name : string) (ports : list string) (nsg : NSG) :
  (exists r, r ∈ security_rules nsg /\ name r = rule_name) ->
  exists pre r post r',
    security_rules nsg = pre ++ r :: post
    /\ Forall (fun q => name q <> rule_name) pre
    /\ name r = rule_name
    /\ reconcile_nsg rule_name ports nsg = mkNSG (nsg_name nsg) (pre ++ r' :: post)
    /\ destination_port_ranges r' = destination_port_ranges r ++ ports
    /\ name r' = name r
    /\ priority r' = priority r
    /\ direction r' = direction r
    /\ protocol r' = protocol r
    /\ access r' = access r
    /\ source_address_prefix r' = source_address_prefix r
    /\ source_port_range r' = source_port_range r
    /\ destination_address_prefix r' = destination_address_prefix r
    /\ length (security_rules (reconcile_nsg rule_name ports nsg))
       = length (security_rules nsg).
Proof.
  intros (r0 & Hin & Hname).
  destruct (first_named rule_name (security_rules nsg))
    as [Hno|(pre & r & post & Hrules & Hpre & Hr)].
  - exfalso. rewrite Forall_forall in Hno. exact (Hno r0 Hin Hname).
  - exists pre, r, post, (extend_ports r ports).
    rewrite (reconcile_nsg_present _ _ _ _ _ _ Hrules Hpre Hr), Hrules.
    simpl. rewrite !length_app. simpl. tauto.
Qed.

Lemma existing_rule_extended_witness :
  (exists r, r ∈ security_rules nsg_outbound /\ name r = "sky-ports-c1")
  /\ exists pre r post r',
       security_rules nsg_outbound = pre ++ r :: post
       /\ Forall (fun q => name q <> "sky-ports-c1") pre
       /\ name r = "sky-ports-c1"
       /\ reconcile_nsg "sky-ports-c1" ["8000"] nsg_outbound
          = mkNSG (nsg_name nsg_outbound) (pre ++ r' :: post)
       /\ destination_port_ranges r' = destination_port_ranges r ++ ["8000"]
       /\ name r' = name r
       /\ priority r' = priority r
       /\ direction r' = direction r
       /\ protocol r' = protocol r
       /\ access r' = access r
       /\ source_address_prefix r' = source_address_prefix r
       /\ source_port_range r' = source_port_range r
       /\ destination_address_prefix r' = destination_address_prefix r
       /\ length (security_rules (reconcile_nsg "sky-ports-c1" ["8000"] nsg_outbound))
          = length (security_rules nsg_outbound).
Proof.
  assert (H : exists r, r ∈ security_rules nsg_outbound /\ name r = "sky-ports-c1").
  { exists outbound_c1. split; [|reflexivity].
    apply list_elem_of_further, list_elem_of_here. }
  split; [exact H|].
  exact (existing_rule_extended "sky-ports-c1" ["8000"] nsg_outbound H).
Defined.

(** C4.  In a group without a rule named [sky-ports-<cluster>] the scan
    appends, behind all rules of the group, one rule of that name with
    direction Inbound, protocol Tcp, access Allow, the three wildcards and
    exactly the requested ports; its priority is one above the maximum
    kept by the scan. *)
Theorem new_rule_fields (cluster_name_on_cloud : string) (ports : list string)
    (nsg : NSG) :
  Forall (fun r => name r <> rule_name_of cluster_name_on_cloud) (security_rules nsg) ->
  reconcile_nsg (rule_name_of cluster_name_on_cloud) ports nsg
  = {| nsg_name := nsg_name nsg;
       security_rules :=
         security_rules nsg
         ++ [ {| name := "sky-ports-" +:+ cluster_name_on_cloud;
                 priority := max_from 0 (inbound_priorities (security_rules nsg)) + 1;
                 protocol := "Tcp";
                 access := "Allow";
                 direction := "Inbound";
                 source_address_prefix := "*";
                 source_port_range := "*";
                 destination_address_prefix := "*";
                 destination_port_ranges := ports |} ] |}.
Proof. intros Hno. by rewrite (reconcile_nsg_absent _ _ _ Hno). Qed.

(** The example of the specification: [nsg-A] with one Inbound rule at
    priority 100, cluster [c1], ports 8000 and 8001-8010. *)
Lemma new_rule_fields_witness :
  reconcile_nsg "sky-ports-c1" ["8000"; "8001-8010"] nsg_A
  = {| nsg_name := "nsg-A";
       security_rules :=
         [ default_allow_ssh;
           {| name := "sky-ports-c1";
              priority := 101;
              protocol := "Tcp";
              access := "Allow";
              direction := "Inbound";
              source_address_prefix := "*";
              source_port_range := "*";
              destination_address_prefix := "*";
              destination_port_ranges := ["8000"; "8001-8010"] |} ] |}.
Proof.
  apply (new_rule_fields "c1" ["8000"; "8001-8010"] nsg_A).
  apply Forall_cons. split; [discriminate|apply Forall_nil_2].
Defined.

(** C5.  If no two Inbound rules of a group share a priority before the
    scan, none do after it, on either branch. *)
Theorem inbound_priorities_stay_unique (rule_name : string) (ports : list string)
    (nsg : NSG) :
  inbound_priorities_unique (security_rules nsg) ->
  inbound_priorities_unique (security_rules (reconcile_nsg rule_name ports nsg)).
Proof.
  unfold inbound_priorities_unique. intros Huniq.
  destruct (first_named rule_name (security_rules nsg))
    as [Hno|(pre & r & post & Hrules & Hpre & Hr)].
  - rewrite (reconcile_nsg_absent _ _ _ Hno). simpl.
    rewrite inbound_priorities_app. simpl.
    apply NoDup_app. split; [done|]. split; [|apply NoDup_singleton].
    intros p Hp Hnew. apply list_elem_of_singleton in Hnew.
    pose proof (max_from_ge 0 _ _ Hp). lia.
  - rewrite (reconcile_nsg_present _ _ _ _ _ _ Hrules Hpre Hr). simpl.
    rewrite inbound_priorities_extend. by rewrite <- Hrules.
Qed.

Lemma inbound_priorities_stay_unique_witness :
  inbound_priorities_unique (security_rules nsg_A)
  /\ inbound_priorities_unique
       (security_rules (reconcile_nsg "sky-ports-c1" ["8000"] nsg_A)).
Proof.
  assert (H : inbound_priorities_unique (security_rules nsg_A)).
  { apply NoDup_singleton. }
  split; [exact H|].
  exact (inbound_priorities_stay_unique "sky-ports-c1" ["8000"] nsg_A H).
Defined.

(** C10 (as amended).  The scan compares names only, never directions.
    In a group that holds an Outbound rule of the name, no rule is added
    and the number of Inbound rules of the name stays what it was; the
    ports go to the first rule of the name, whatever its direction.  When
    the Outbound rule is that first rule, it is the one that gets the
    ports: it stays Outbound and the Inbound rules of the name are the
    ones the group had. *)
Theorem outbound_rule_extended (rule_name : string) (ports : list string)
    (nsg : NSG) (r : SecurityRule) :
  r ∈ security_rules nsg ->
  name r = rule_name ->
  direction r = "Outbound" ->
  length (security_rules (reconcile_nsg rule_name ports nsg))
  = length (security_rules nsg)
  /\ length (inbound_rules_named rule_name
               (security_rules (reconcile_nsg rule_name ports nsg)))
     = length (inbound_rules_named rule_name (security_rules nsg))
  /\ (exists pre r0 post r0',
        security_rules nsg = pre ++ r0 :: post
        /\ Forall (fun q => name q <> rule_name) pre
        /\ name r0 = rule_name
        /\ security_rules (reconcile_nsg rule_name ports nsg) = pre ++ r0' :: post
        /\ name r0' = rule_name
        /\ direction r0' = direction r0
        /\ destination_port_ranges r0' = destination_port_ranges r0 ++ ports)
  /\ (find_rule rule_name (security_rules nsg) = Some r ->
      exists pre post r',
        security_rules nsg = pre ++ r :: post
        /\ security_rules (reconcile_nsg rule_name ports nsg) = pre ++ r' :: post
        /\ name r' = rule_name
        /\ direction r' = "Outbound"
        /\ destination_port_ranges r' = destination_port_ranges r ++ ports
        /\ inbound_rules_named rule_name
             (security_rules (reconcile_nsg rule_name ports nsg))
           = inbound_rules_named rule_name (security_rules nsg)).
Proof.
  intros Hin Hname Hout.
  destruct (first_named rule_name (security_rules nsg))
    as [Hno|(pre & r0 & post & Hrules & Hpre & Hr0)].
  { exfalso. rewrite Forall_forall in Hno. exact (Hno r Hin Hname). }
  rewrite (reconcile_nsg_present _ _ _ _ _ _ Hrules Hpre Hr0), Hrules. simpl.
  split; [by rewrite !length_app|]. split.
  { unfold inbound_rules_named. rewrite !List.filter_app, !length_app. simpl.
    by destruct (_ && _). }
  split.
  { by exists pre, r0, post, (extend_ports r0 ports). }
  intros Hfind. rewrite (find_rule_first _ _ _ _ Hpre Hr0) in Hfind.
  injection Hfind as ->.
  exists pre, post, (extend_ports r ports). repeat split; try done.
  unfold inbound_rules_named. rewrite !List.filter_app. simpl.
  rewrite Hout. simpl. by rewrite !andb_false_r.
Qed.

Lemma outbound_rule_extended_witness :
  outbound_c1 ∈ security_rules nsg_outbound
  /\ name outbound_c1 = "sky-ports-c1"
  /\ direction outbound_c1 = "Outbound"
  /\ find_rule "sky-ports-c1" (security_rules nsg_outbound) = Some outbound_c1
  /\ length (security_rules (reconcile_nsg "sky-ports-c1" ["8000"] nsg_outbound))
     = length (security_rules nsg_outbound)
  /\ length (inbound_rules_named "sky-ports-c1"
               (security_rules (reconcile_nsg "sky-ports-c1" ["8000"] nsg_outbound)))
     = length (inbound_rules_named "sky-ports-c1" (security_rules nsg_outbound))
  /\ (exists pre r0 post r0',
        security_rules nsg_outbound = pre ++ r0 :: post
        /\ Forall (fun q => name q <> "sky-ports-c1") pre
        /\ name r0 = "sky-ports-c1"
        /\ security_rules (reconcile_nsg "sky-ports-c1" ["8000"] nsg_outbound)
           = pre ++ r0' :: post
        /\ name r0' = "sky-ports-c1"
        /\ direction r0' = direction r0
        /\ destination_port_ranges r0' = destination_port_ranges r0 ++ ["8000"])
  /\ (find_rule "sky-ports-c1" (security_rules nsg_outbound) = Some outbound_c1 ->
      exists pre post r',
        security_rules nsg_outbound = pre ++ outbound_c1 :: post
        /\ security_rules (reconcile_nsg "sky-ports-c1" ["8000"] nsg_outbound)
           = pre ++ r' :: post
        /\ name r' = "sky-ports-c1"
        /\ direction r' = "Outbound"
        /\ destination_port_ranges r' = destination_port_ranges outbound_c1 ++ ["8000"]
        /\ inbound_rules_named "sky-ports-c1"
             (security_rules (reconcile_nsg "sky-ports-c1" ["8000"] nsg_outbound))
           = inbound_rules_named "sky-ports-c1" (security_rules nsg_outbound)).
Proof.
  assert (Hin : outbound_c1 ∈ security_rules nsg_outbound).
  { apply list_elem_of_further, list_elem_of_here. }
  split; [exact Hin|]. split; [reflexivity|]. split; [reflexivity|].
  split; [reflexivity|].
  exact (outbound_rule_extended "sky-ports-c1" ["8000"] nsg_outbound outbound_c1
           Hin eq_refl eq_refl).
Defined.

(** C10 as first worded: in every group that holds an Outbound rule of
    the name, that rule would get the ports.  In a group with an Inbound
    rule of the name in front of the Outbound one, the scan stops at the
    Inbound rule and extends it; the Outbound rule keeps its ports. *)
Lemma outbound_rule_extended_counterexample :
  ~ (forall (rule_name : string) (ports : list string) (nsg : NSG)
            (i : nat) (r : SecurityRule),
       security_rules nsg !! i = Some r ->
       name r = rule_name ->
       direction r = "Outbound" ->
       exists r',
         security_rules (reconcile_nsg rule_name ports nsg) !! i = Some r'
         /\ destination_port_ranges r' = destination_port_ranges r ++ ports
         /\ length (inbound_rules_named rule_name
                      (security_rules (reconcile_nsg rule_name ports nsg)))
            = length (inbound_rules_named rule_name (security_rules nsg))).
Proof.
  intros Hclaim.
  destruct (Hclaim "sky-ports-c1" ["8000"] nsg_both_directions 1%nat outbound_c1
              eq_refl eq_refl eq_refl) as (r' & Hi & Hports & _).
  vm_compute in Hi. injection Hi as <-.
  vm_compute in Hports. discriminate.
Qed.

(** ** The loop over the groups *)

Lemma groups_of_insert (st : gmap string (list NSG)) (resource_group : string)
    (l : list NSG) :
  groups_of (<[resource_group := l]> st) resource_group = l.
Proof. unfold groups_of. by rewrite lookup_insert_eq. Qed.

Lemma upsert_middle (group_name : string) (body g : NSG) (l1 l2 : list NSG) :
  group_name ∉ map nsg_name l1 ->
  nsg_name g = group_name ->
  upsert group_name body (l1 ++ g :: l2) = l1 ++ body :: l2.
Proof.
  intros Hfresh Hg. induction l1 as [|h l1 IH]; simpl.
  - apply String.eqb_eq in Hg. by rewrite Hg.
  - simpl in Hfresh. apply not_elem_of_cons in Hfresh as [Hh Hfresh].
    assert (Hne : nsg_name h <> group_name) by congruence.
    apply String.eqb_neq in Hne. rewrite Hne. by rewrite IH.
Qed.

Section loop.
Context (E : env) (resource_group rule_name : string) (ports : list string).

Lemma stored_after_name (nsg : NSG) :
  nsg_name (stored_after E resource_group rule_name ports nsg) = nsg_name nsg.
Proof.
  unfold stored_after.
  destruct (http_error _ _ _ _); [done|apply reconcile_nsg_name].
Qed.


(** One pass of the loop body never raises: the request is recorded, and
    either the store takes the reconciled group or a warning is logged. *)
Lemma open_ports_in_nsg_run (nsg : NSG) (s : state) :
  open_ports_in_nsg E (PyOp OpCreateOrUpdate) resource_group rule_name ports nsg s
  = (Ok tt,
     mkState
       (let nsg' := reconcile_nsg rule_name ports nsg in
        match http_error E resource_group (nsg_name nsg') nsg' with
        | Some _ => store s
        | None =>
            <[resource_group :=
                upsert (nsg_name nsg') nsg' (groups_of (store s) resource_group)]>
              (store s)
        end)
       (trace s ++ events_of E resource_group rule_name ports nsg)).
Proof.
  unfold open_ports_in_nsg, try_except_http, call_create_or_update, events_of,
    bind, emit, raise.
  simpl. destruct (http_error _ _ _ _); simpl; [|done].
  by rewrite <- app_assoc.
Qed.

Lemma for_each_open_ports_run (todo done_ : list NSG) (s : state) :
  groups_of (store s) resource_group = done_ ++ todo ->
  NoDup (map nsg_name (done_ ++ todo)) ->
  exists s',
    for_each todo
      (open_ports_in_nsg E (PyOp OpCreateOrUpdate) resource_group rule_name ports) s
    = (Ok tt, s')
    /\ groups_of (store s') resource_group
       = done_ ++ map (stored_after E resource_group rule_name ports) todo
    /\ (forall rg, rg <> resource_group -> store s' !! rg = store s !! rg)
    /\ trace s'
       = trace s ++ concat (map (events_of E resource_group rule_name ports) todo).
Proof.
  revert done_ s. induction todo as [|g todo IH]; intros done_ s Hgroups Hnodup.
  - exists s. rewrite app_nil_r in Hgroups. simpl. by rewrite !app_nil_r.
  - simpl. unfold bind at 1. rewrite open_ports_in_nsg_run.
    set (s1 := mkState _ _).
    assert (Hfresh : nsg_name g ∉ map nsg_name done_).
    { rewrite map_app in Hnodup. apply NoDup_app in Hnodup as (_ & Hdisj & _).
      intros Hin. apply (Hdisj _ Hin). simpl. apply list_elem_of_here. }
    assert (Hs1 : groups_of (store s1) resource_group
                  = (done_ ++ [stored_after E resource_group rule_name ports g]) ++ todo).
    { subst s1. unfold stored_after. simpl.
      destruct (http_error _ _ _ _).
      - by rewrite Hgroups, <- app_assoc.
      - rewrite groups_of_insert, Hgroups, reconcile_nsg_name.
        rewrite upsert_middle by done. by rewrite <- app_assoc. }
    assert (Hother : forall rg, rg <> resource_group -> store s1 !! rg = store s !! rg).
    { intros rg Hrg. subst s1. simpl. destruct (http_error _ _ _ _); [done|].
      by rewrite lookup_insert_ne. }
    destruct (IH _ s1 Hs1) as (s' & Hrun & Hstore & Hrest & Htrace).
    { rewrite <- app_assoc. simpl. rewrite !map_app in *. simpl in *.
      by rewrite stored_after_name. }
    exists s'. split; [done|]. split; [by rewrite Hstore, <- app_assoc|].
    split.
    + intros rg Hrg. by rewrite Hrest, Hother.
    + rewrite Htrace. subst s1. simpl. by rewrite <- app_assoc.
Qed.

End loop.

(** A whole call with a usable configuration and client, on a resource
    group whose groups have distinct names (the name identifies a group
    within its resource group): it returns
    normally, every group of the resource group is replaced by what its
    pass leaves, other resource groups are not touched, and the trace is
    the listing followed by the events of each pass. *)
Lemma open_ports_run (E : env) (cluster_name_on_cloud : string)
    (ports : list string) (config : gmap string string)
    (subscription_id resource_group : string) (s : state) :
  ready E config subscription_id resource_group ->
  NoDup (map nsg_name (groups_of (store s) resource_group)) ->
  exists s',
    open_ports E cluster_name_on_cloud ports (Some config) s = (Ok tt, s')
    /\ groups_of (store s') resource_group
       = map (stored_after E resource_group (rule_name_of cluster_name_on_cloud) ports)
           (groups_of (store s) resource_group)
    /\ (forall rg, rg <> resource_group -> store s' !! rg = store s !! rg)
    /\ trace s'
       = trace s ++ StoreList resource_group
         :: concat (map (events_of E resource_group
                           (rule_name_of cluster_name_on_cloud) ports)
                      (groups_of (store s) resource_group)).
Proof.
  intros (Hsub & Hrg & Hupdate & Hlist) Hnodup.
  destruct (for_each_open_ports_run E resource_group
              (rule_name_of cluster_name_on_cloud) ports
              (groups_of (store s) resource_group) []
              (mkState (store s) (trace s ++ [StoreList resource_group])))
    as (s' & Hrun & Hstore & Hrest & Htrace); [done|done|].
  exists s'. split; [|split; [done|split; [done|]]].
  - unfold open_ports, subscript, bind, lift, ret. rewrite Hsub, Hrg. simpl.
    rewrite Hupdate, Hlist. simpl. exact Hrun.
  - rewrite Htrace. simpl. by rewrite <- app_assoc.
Qed.

Lemma lookup_map {A B} (f : A -> B) (l : list A) (i : nat) :
  map f l !! i = f <$> (l !! i).
Proof.
  revert i. induction l as [|x l IH]; intros [|i]; simpl; done.
Qed.

Lemma elem_of_concat_map {A B} (f : A -> list B) (l : list A) (x : A) (y : B) :
  x ∈ l -> y ∈ f x -> y ∈ concat (map f l).
Proof.
  intros Hx Hy. induction l as [|z l IH].
  - by apply elem_of_nil in Hx.
  - simpl. apply elem_of_app. apply elem_of_cons in Hx as [<-|Hx]; [by left|].
    right. by apply IH.
Qed.

(** ** Whole calls *)

(** C2.  With a usable configuration and client the call returns
    normally whatever the platform answers to the create-or-update
    requests: a group whose request is accepted is stored reconciled, a
    group whose request raises an HTTP error stays as it was and a
    warning is logged, and neither outcome stops the groups behind it. *)
Theorem open_ports_partial_failure (E : env) (cluster_name_on_cloud : string)
    (ports : list string) (config : gmap string string)
    (subscription_id resource_group : string) (s : state) :
  ready E config subscription_id resource_group ->
  NoDup (map nsg_name (groups_of (store s) resource_group)) ->
  exists s',
    open_ports E cluster_name_on_cloud ports (Some config) s = (Ok tt, s')
    /\ forall (i : nat) (nsg : NSG),
         groups_of (store s) resource_group !! i = Some nsg ->
         let nsg' := reconcile_nsg (rule_name_of cluster_name_on_cloud) ports nsg in
         match http_error E resource_group (nsg_name nsg') nsg' with
         | None => groups_of (store s') resource_group !! i = Some nsg'
         | Some e =>
             groups_of (store s') resource_group !! i = Some nsg
             /\ LogWarning (warning_message ports nsg e) ∈ trace s'
         end.
Proof.
  intros Hready Hnodup.
  destruct (open_ports_run E cluster_name_on_cloud ports config
              subscription_id resource_group s Hready Hnodup)
    as (s' & Hrun & Hstore & _ & Htrace).
  exists s'. split; [done|]. intros i nsg Hi nsg'.
  assert (Hi' : groups_of (store s') resource_group !! i
                = Some (stored_after E resource_group
                          (rule_name_of cluster_name_on_cloud) ports nsg)).
  { by rewrite Hstore, lookup_map, Hi. }
  unfold stored_after in Hi'. fold nsg' in Hi'.
  destruct (http_error E resource_group (nsg_name nsg') nsg') as [e|] eqn:Herr;
    [|done].
  split; [done|]. rewrite Htrace.
  apply elem_of_app. right. apply list_elem_of_further.
  apply (elem_of_concat_map _ _ nsg).
  - by apply list_elem_of_lookup_2 in Hi.
  - unfold events_of. fold nsg'. rewrite Herr.
    apply list_elem_of_further, list_elem_of_here.
Qed.

Lemma ready_platform (rejected : list string) :
  ready (platform rejected) config_1 "sub-1" "rg-1".
Proof. repeat split; reflexivity. Defined.

Lemma state_1_names :
  NoDup (map nsg_name (groups_of (store state_1) "rg-1")).
Proof. apply (bool_decide_unpack _). vm_compute. exact I. Defined.

Lemma open_ports_partial_failure_witness :
  ready (platform ["G2"]) config_1 "sub-1" "rg-1"
  /\ NoDup (map nsg_name (groups_of (store state_1) "rg-1"))
  /\ exists s',
       open_ports (platform ["G2"]) "c1" ["8000"] (Some config_1) state_1 = (Ok tt, s')
       /\ forall (i : nat) (nsg : NSG),
            groups_of (store state_1) "rg-1" !! i = Some nsg ->
            let nsg' := reconcile_nsg (rule_name_of "c1") ["8000"] nsg in
            match http_error (platform ["G2"]) "rg-1" (nsg_name nsg') nsg' with
            | None => groups_of (store s') "rg-1" !! i = Some nsg'
            | Some e =>
                groups_of (store s') "rg-1" !! i = Some nsg
                /\ LogWarning (warning_message ["8000"] nsg e) ∈ trace s'
            end.
Proof.
  split; [exact (ready_platform ["G2"])|]. split; [exact state_1_names|].
  exact (open_ports_partial_failure (platform ["G2"]) "c1" ["8000"] config_1
           "sub-1" "rg-1" state_1 (ready_platform ["G2"]) state_1_names).
Defined.

(** The three groups of the specification's scenario: the request for G2
    fails, G1 and G3 are updated, G2 is not, and the call returns. *)
Example open_ports_G1_G2_G3 :
  let '(r, s') := open_ports (platform ["G2"]) "c1" ["8000"] (Some config_1) state_1 in
  r = Ok tt
  /\ groups_of (store s') "rg-1"
     = [ reconcile_nsg "sky-ports-c1" ["8000"] G1;
         G2;
         reconcile_nsg "sky-ports-c1" ["8000"] G3 ]
  /\ reconcile_nsg "sky-ports-c1" ["8000"] G1 <> G1
  /\ reconcile_nsg "sky-ports-c1" ["8000"] G3 <> G3
  /\ trace s'
     = [ StoreList "rg-1";
         StoreCreateOrUpdate "rg-1" "G1" (reconcile_nsg "sky-ports-c1" ["8000"] G1);
         StoreCreateOrUpdate "rg-1" "G2" (reconcile_nsg "sky-ports-c1" ["8000"] G2);
         LogWarning "Failed to open ports ['8000'] in NSG G2: 409 Conflict";
         StoreCreateOrUpdate "rg-1" "G3" (reconcile_nsg "sky-ports-c1" ["8000"] G3) ].
Proof. vm_compute. repeat split; discriminate. Qed.

(** C7.  A configuration without [subscription_id] or without
    [resource_group] makes the dictionary subscript raise [KeyError] (the
    specification's ConfigurationError) for that key; the state comes back
    as it went in: no request reached the store and nothing was logged. *)
Theorem open_ports_missing_key (E : env) (cluster_name_on_cloud : string)
    (ports : list string) (config : gmap string string) (s : state) :
  config !! "subscription_id" = None \/ config !! "resource_group" = None ->
  exists key,
    open_ports E cluster_name_on_cloud ports (Some config) s = (Raise (KeyError key), s)
    /\ (key = "subscription_id" \/ key = "resource_group").
Proof.
  intros Hmissing. unfold open_ports, subscript, bind, raise, ret.
  destruct (config !! "subscription_id") as [sub|] eqn:Hsub.
  - destruct Hmissing as [Hm|Hm]; [discriminate|]. rewrite Hm.
    exists "resource_group". by split; [|right].
  - exists "subscription_id". by split; [|left].
Qed.

Lemma open_ports_missing_key_witness :
  (<["subscription_id" := "sub-1"]> (∅ : gmap string string) !! "subscription_id" = None
   \/ <["subscription_id" := "sub-1"]> (∅ : gmap string string) !! "resource_group" = None)
  /\ exists key,
       open_ports (platform []) "c1" ["8000"]
         (Some (<["subscription_id" := "sub-1"]> ∅)) state_1
       = (Raise (KeyError key), state_1)
       /\ (key = "subscription_id" \/ key = "resource_group").
Proof.
  assert (H : <["subscription_id" := "sub-1"]> (∅ : gmap string string)
                !! "subscription_id" = None
              \/ <["subscription_id" := "sub-1"]> (∅ : gmap string string)
                   !! "resource_group" = None).
  { right. reflexivity. }
  split; [exact H|].
  exact (open_ports_missing_key (platform []) "c1" ["8000"]
           (<["subscription_id" := "sub-1"]> ∅) state_1 H).
Defined.

(** Without a configuration at all the assertion of line 37 fails first. *)
Lemma open_ports_no_config (E : env) (cluster_name_on_cloud : string)
    (ports : list string) (s : state) :
  open_ports E cluster_name_on_cloud ports None s
  = (Raise (AssertionError cluster_name_on_cloud), s).
Proof. reflexivity. Qed.

Lemma cleanup_ports_noop (cluster_name_on_cloud : string)
    (provider_config : option (gmap string string)) (s : state) :
  cleanup_ports cluster_name_on_cloud provider_config s = (Ok tt, s).
Proof. reflexivity. Qed.

(** ** Calling twice, calling with no ports *)

Lemma find_rule_after_reconcile (rule_name : string) (ports : list string) (nsg : NSG) :
  exists pre r post,
    security_rules (reconcile_nsg rule_name ports nsg) = pre ++ r :: post
    /\ Forall (fun q => name q <> rule_name) pre
    /\ name r = rule_name
    /\ destination_port_ranges r = ports_before rule_name nsg ++ ports.
Proof.
  unfold ports_before.
  destruct (first_named rule_name (security_rules nsg))
    as [Hno|(pre & r & post & Hrules & Hpre & Hr)].
  - rewrite (reconcile_nsg_absent _ _ _ Hno), (find_rule_absent _ _ Hno).
    by eexists (security_rules nsg), _, [].
  - rewrite (reconcile_nsg_present _ _ _ _ _ _ Hrules Hpre Hr), Hrules,
      (find_rule_first _ _ _ _ Hpre Hr).
    by exists pre, (extend_ports r ports), post.
Qed.

(** The rule of the cluster after one scan and after two. *)
Lemma reconcile_nsg_twice (rule_name : string) (ports : list string) (nsg : NSG) :
  let nsg1 := reconcile_nsg rule_name ports nsg in
  let nsg2 := reconcile_nsg rule_name ports nsg1 in
  exists r1 r2,
    find_rule rule_name (security_rules nsg1) = Some r1
    /\ find_rule rule_name (security_rules nsg2) = Some r2
    /\ destination_port_ranges r1 = ports_before rule_name nsg ++ ports
    /\ destination_port_ranges r2 = ports_before rule_name nsg ++ ports ++ ports.
Proof.
  intros nsg1 nsg2.
  destruct (find_rule_after_reconcile rule_name ports nsg)
    as (pre & r1 & post & Hrules1 & Hpre & Hr1 & Hports1).
  fold nsg1 in Hrules1.
  exists r1, (extend_ports r1 ports).
  split; [by rewrite Hrules1; apply find_rule_first|].
  split; [|split; [done|]].
  - subst nsg2. rewrite (reconcile_nsg_present _ _ _ _ _ _ Hrules1 Hpre Hr1).
    by apply find_rule_first.
  - simpl. by rewrite Hports1, <- app_assoc.
Qed.

(** C6.  Two calls in a row with the same non-empty ports, both accepted
    by the platform for a group: after the first call the rule of the
    cluster ends with the ports once, after the second call twice.  The
    second call changed the rule, and every entry counts twice on top of
    what the rule held before the first call. *)
Theorem open_ports_twice_duplicates (E : env) (cluster_name_on_cloud : string)
    (ports : list string) (config : gmap string string)
    (subscription_id resource_group : string) (s : state) :
  ready E config subscription_id resource_group ->
  NoDup (map nsg_name (groups_of (store s) resource_group)) ->
  ports <> [] ->
  exists s1 s2,
    open_ports E cluster_name_on_cloud ports (Some config) s = (Ok tt, s1)
    /\ open_ports E cluster_name_on_cloud ports (Some config) s1 = (Ok tt, s2)
    /\ forall (i : nat) (nsg : NSG),
         groups_of (store s) resource_group !! i = Some nsg ->
         let rule_name := rule_name_of cluster_name_on_cloud in
         let nsg1 := reconcile_nsg rule_name ports nsg in
         let nsg2 := reconcile_nsg rule_name ports nsg1 in
         http_error E resource_group (nsg_name nsg1) nsg1 = None ->
         http_error E resource_group (nsg_name nsg2) nsg2 = None ->
         exists r1 r2,
           groups_of (store s1) resource_group !! i = Some nsg1
           /\ find_rule rule_name (security_rules nsg1) = Some r1
           /\ groups_of (store s2) resource_group !! i = Some nsg2
           /\ find_rule rule_name (security_rules nsg2) = Some r2
           /\ destination_port_ranges r1 = ports_before rule_name nsg ++ ports
           /\ destination_port_ranges r2
              = ports_before rule_name nsg ++ ports ++ ports
           /\ destination_port_ranges r2 <> destination_port_ranges r1
           /\ forall p,
                count_occ string_dec (destination_port_ranges r2) p
                = (count_occ string_dec (ports_before rule_name nsg) p
                   + 2 * count_occ string_dec ports p)%nat.
Proof.
  intros Hready Hnodup Hports.
  destruct (open_ports_run E cluster_name_on_cloud ports config
              subscription_id resource_group s Hready Hnodup)
    as (s1 & Hrun1 & Hstore1 & _ & _).
  assert (Hnodup1 : NoDup (map nsg_name (groups_of (store s1) resource_group))).
  { rewrite Hstore1, map_map.
    erewrite map_ext; [exact Hnodup|]. intros g. apply stored_after_name. }
  destruct (open_ports_run E cluster_name_on_cloud ports config
              subscription_id resource_group s1 Hready Hnodup1)
    as (s2 & Hrun2 & Hstore2 & _ & _).
  exists s1, s2. split; [done|]. split; [done|].
  intros i nsg Hi rule_name nsg1 nsg2 Hok1 Hok2.
  assert (Hi1 : groups_of (store s1) resource_group !! i = Some nsg1).
  { rewrite Hstore1, lookup_map, Hi. simpl. unfold stored_after.
    fold rule_name nsg1. by rewrite Hok1. }
  assert (Hi2 : groups_of (store s2) resource_group !! i = Some nsg2).
  { rewrite Hstore2, lookup_map, Hi1. simpl. unfold stored_after.
    fold rule_name nsg2. by rewrite Hok2. }
  destruct (reconcile_nsg_twice rule_name ports nsg)
    as (r1 & r2 & Hfind1 & Hfind2 & Hports1 & Hports2).
  exists r1, r2. repeat (split; [done|]). split.
  - rewrite Hports1, Hports2. intros Heq.
    apply (f_equal length) in Heq. rewrite !length_app in Heq.
    destruct ports; [done|]. simpl in Heq. lia.
  - intros p. rewrite Hports2, !count_occ_app. lia.
Qed.

Lemma open_ports_twice_duplicates_witness :
  ready (platform []) config_1 "sub-1" "rg-1"
  /\ NoDup (map nsg_name (groups_of (store state_1) "rg-1"))
  /\ ["8000"] <> []
  /\ exists s1 s2,
       open_ports (platform []) "c1" ["8000"] (Some config_1) state_1 = (Ok tt, s1)
       /\ open_ports (platform []) "c1" ["8000"] (Some config_1) s1 = (Ok tt, s2)
       /\ forall (i : nat) (nsg : NSG),
            groups_of (store state_1) "rg-1" !! i = Some nsg ->
            let rule_name := rule_name_of "c1" in
            let nsg1 := reconcile_nsg rule_name ["8000"] nsg in
            let nsg2 := reconcile_nsg rule_name ["8000"] nsg1 in
            http_error (platform []) "rg-1" (nsg_name nsg1) nsg1 = None ->
            http_error (platform []) "rg-1" (nsg_name nsg2) nsg2 = None ->
            exists r1 r2,
              groups_of (store s1) "rg-1" !! i = Some nsg1
              /\ find_rule rule_name (security_rules nsg1) = Some r1
              /\ groups_of (store s2) "rg-1" !! i = Some nsg2
              /\ find_rule rule_name (security_rules nsg2) = Some r2
              /\ destination_port_ranges r1 = ports_before rule_name nsg ++ ["8000"]
              /\ destination_port_ranges r2
                 = ports_before rule_name nsg ++ ["8000"] ++ ["8000"]
              /\ destination_port_ranges r2 <> destination_port_ranges r1
              /\ forall p,
                   count_occ string_dec (destination_port_ranges r2) p
                   = (count_occ string_dec (ports_before rule_name nsg) p
                      + 2 * count_occ string_dec ["8000"] p)%nat.
Proof.
  assert (H : ["8000"] <> @nil string) by discriminate.
  split; [exact (ready_platform [])|]. split; [exact state_1_names|].
  split; [exact H|].
  exact (open_ports_twice_duplicates (platform []) "c1" ["8000"] config_1
           "sub-1" "rg-1" state_1 (ready_platform []) state_1_names H).
Defined.

(** Two calls on a group that starts without the rule: the ports are
    there twice. *)
Example open_ports_twice_G2 :
  let '(_, s1) := open_ports (platform []) "c1" ["8000"; "9000"] (Some config_1) state_1 in
  let '(_, s2) := open_ports (platform []) "c1" ["8000"; "9000"] (Some config_1) s1 in
  (ports_before "sky-ports-c1" <$> groups_of (store s1) "rg-1" !! 1%nat)
  = Some ["8000"; "9000"]
  /\ (ports_before "sky-ports-c1" <$> groups_of (store s2) "rg-1" !! 1%nat)
     = Some ["8000"; "9000"; "8000"; "9000"].
Proof. vm_compute. done. Qed.

Lemma extend_ports_nil (r : SecurityRule) : extend_ports r [] = r.
Proof. destruct r. unfold extend_ports. simpl. by rewrite app_nil_r. Qed.

Lemma reconcile_nsg_no_ports (rule_name : string) (nsg : NSG) :
  (exists r, r ∈ security_rules nsg /\ name r = rule_name) ->
  reconcile_nsg rule_name [] nsg = nsg.
Proof.
  intros (r0 & Hin & Hname).
  destruct (first_named rule_name (security_rules nsg))
    as [Hno|(pre & r & post & Hrules & Hpre & Hr)].
  - exfalso. rewrite Forall_forall in Hno. exact (Hno r0 Hin Hname).
  - rewrite (reconcile_nsg_present _ _ _ _ _ _ Hrules Hpre Hr).
    rewrite extend_ports_nil, <- Hrules. by destruct nsg.
Qed.

(** C8 (as amended).  A call with no ports returns normally and leaves
    every listed group that already holds the rule of the cluster exactly
    as it was.  A listed group without that rule gets the new rule, with
    an empty list of destination ports, once the platform accepts the
    request. *)
Theorem open_ports_no_ports (E : env) (cluster_name_on_cloud : string)
    (config : gmap string string)
    (subscription_id resource_group : string) (s : state) :
  ready E config subscription_id resource_group ->
  NoDup (map nsg_name (groups_of (store s) resource_group)) ->
  exists s',
    open_ports E cluster_name_on_cloud [] (Some config) s = (Ok tt, s')
    /\ forall (i : nat) (nsg : NSG),
         groups_of (store s) resource_group !! i = Some nsg ->
         let rule_name := rule_name_of cluster_name_on_cloud in
         ((exists r, r ∈ security_rules nsg /\ name r = rule_name) ->
          groups_of (store s') resource_group !! i = Some nsg)
         /\ (Forall (fun r => name r <> rule_name) (security_rules nsg) ->
             let nsg' :=
               mkNSG (nsg_name nsg)
                 (security_rules nsg
                  ++ [mkRule rule_name
                        (max_from 0 (inbound_priorities (security_rules nsg)) + 1)
                        "Tcp" "Allow" "Inbound" "*" "*" "*" []]) in
             http_error E resource_group (nsg_name nsg) nsg' = None ->
             groups_of (store s') resource_group !! i = Some nsg').
Proof.
  intros Hready Hnodup.
  destruct (open_ports_run E cluster_name_on_cloud [] config
              subscription_id resource_group s Hready Hnodup)
    as (s' & Hrun & Hstore & _ & _).
  exists s'. split; [done|]. intros i nsg Hi rule_name.
  rewrite Hstore, lookup_map, Hi. simpl. unfold stored_after. fold rule_name.
  split.
  - intros Hhas. rewrite (reconcile_nsg_no_ports _ _ Hhas).
    by destruct (http_error _ _ _ _).
  - intros Hno Hok. rewrite (reconcile_nsg_absent _ _ _ Hno).
    simpl. by rewrite Hok.
Qed.

Lemma open_ports_no_ports_witness :
  ready (platform []) config_1 "sub-1" "rg-1"
  /\ NoDup (map nsg_name (groups_of (store state_1) "rg-1"))
  /\ exists s',
       open_ports (platform []) "c1" [] (Some config_1) state_1 = (Ok tt, s')
       /\ forall (i : nat) (nsg : NSG),
            groups_of (store state_1) "rg-1" !! i = Some nsg ->
            let rule_name := rule_name_of "c1" in
            ((exists r, r ∈ security_rules nsg /\ name r = rule_name) ->
             groups_of (store s') "rg-1" !! i = Some nsg)
            /\ (Forall (fun r => name r <> rule_name) (security_rules nsg) ->
                let nsg' :=
                  mkNSG (nsg_name nsg)
                    (security_rules nsg
                     ++ [mkRule rule_name
                           (max_from 0 (inbound_priorities (security_rules nsg)) + 1)
                           "Tcp" "Allow" "Inbound" "*" "*" "*" []]) in
                http_error (platform []) "rg-1" (nsg_name nsg) nsg' = None ->
                groups_of (store s') "rg-1" !! i = Some nsg').
Proof.
  split; [exact (ready_platform [])|]. split; [exact state_1_names|].
  exact (open_ports_no_ports (platform []) "c1" config_1 "sub-1" "rg-1" state_1
           (ready_platform []) state_1_names).
Defined.

(** C8 as the specification words it: with no ports, every listed group
    would come out of the call as it went in.  G1 and G2 hold no rule of
    cluster [c1]; an accepting platform stores both with one rule more. *)
Lemma open_ports_no_ports_counterexample :
  ~ (forall (E : env) (cluster_name_on_cloud : string)
            (config : gmap string string)
            (subscription_id resource_group : string) (s s' : state),
       ready E config subscription_id resource_group ->
       NoDup (map nsg_name (groups_of (store s) resource_group)) ->
       open_ports E cluster_name_on_cloud [] (Some config) s = (Ok tt, s') ->
       groups_of (store s') resource_group = groups_of (store s) resource_group).
Proof.
  intros Hclaim.
  pose proof (Hclaim (platform []) "c1" config_1 "sub-1" "rg-1" state_1
                (snd (open_ports (platform []) "c1" [] (Some config_1) state_1))
                (ready_platform []) state_1_names) as Hsame.
  assert (Hrun : open_ports (platform []) "c1" [] (Some config_1) state_1
                 = (Ok tt, snd (open_ports (platform []) "c1" [] (Some config_1) state_1))).
  { by vm_compute. }
  specialize (Hsame Hrun). vm_compute in Hsame. discriminate.
Qed.

(** ** Resolving an operation of the SDK client *)

Lemma get_azure_sdk_function_plain (client : pyobj) (function_name : string)
    (f : pyval) :
  py_attrs client !! function_name = Some f ->
  f <> PyNone ->
  get_azure_sdk_function client function_name = Ok f.
Proof.
  intros Hf Hnone. unfold get_azure_sdk_function, getattr_default.
  rewrite Hf. destruct f; simpl; congruence.
Qed.

(** X2.  When the plain name is missing, the operation found under the
    prefixed name is returned. *)
Lemma get_azure_sdk_function_begin (client : pyobj) (function_name : string)
    (f : pyval) :
  py_attrs client !! function_name = None ->
  py_attrs client !! ("begin_" +:+ function_name) = Some f ->
  f <> PyNone ->
  get_azure_sdk_function client function_name = Ok f.
Proof.
  intros Hplain Hf Hnone. unfold get_azure_sdk_function, getattr_default.
  rewrite Hplain, Hf. destruct f; simpl; congruence.
Qed.

Lemma prefix_append (needle rest : string) :
  String.prefix needle (needle +:+ rest) = true.
Proof.
  induction needle as [|c needle IH]; simpl; [by destruct rest|].
  by destruct (ascii_dec c c).
Qed.

Lemma contains_here (needle rest : string) :
  contains needle (needle +:+ rest) = true.
Proof.
  assert (Hunfold : forall s, String.prefix needle s = true -> contains needle s = true).
  { intros s Hs. destruct s; cbn [contains]; by rewrite Hs. }
  apply Hunfold, prefix_append.
Qed.

Lemma contains_later (needle before s : string) :
  contains needle s = true -> contains needle (before +:+ s) = true.
Proof.
  intros Hs. induction before as [|c before IH]; [done|].
  simpl. rewrite IH. apply orb_true_r.
Qed.

(** X5.  Neither name is there but the client has a [__name__] (a class,
    a module, a function): the call raises [AttributeError] and the
    message names both candidates. *)
Lemma get_azure_sdk_function_neither_named (client : pyobj)
    (function_name : string) (n : pyval) :
  py_attrs client !! function_name = None ->
  py_attrs client !! ("begin_" +:+ function_name) = None ->
  py_attrs client !! "__name__" = Some n ->
  exists msg,
    get_azure_sdk_function client function_name = Raise (AttributeError msg)
    /\ contains function_name msg = true
    /\ contains ("begin_" +:+ function_name) msg = true.
Proof.
  intros Hplain Hbegin Hname.
  unfold get_azure_sdk_function, getattr_default, no_function_message, getattr.
  rewrite Hplain, Hbegin, Hname. eexists. split; [reflexivity|]. split.
  - do 4 apply contains_later. apply contains_here.
  - do 5 apply contains_later.
    change (" or begin_" +:+ function_name +:+ " attribute")
      with (" or " +:+ ("begin_" +:+ function_name) +:+ " attribute").
    apply contains_later. apply contains_here.
Qed.

(** Neither name is there and the client is an ordinary instance, without
    [__name__]: building the message fails, and what reaches the caller is
    the [AttributeError] of that lookup. *)
Lemma get_azure_sdk_function_neither_unnamed (client : pyobj)
    (function_name : string) :
  py_attrs client !! function_name = None ->
  py_attrs client !! ("begin_" +:+ function_name) = None ->
  py_attrs client !! "__name__" = None ->
  get_azure_sdk_function client function_name
  = Raise (AttributeError
             ("'" +:+ py_type client +:+ "' object has no attribute '__name__'")).
Proof.
  intros Hplain Hbegin Hname.
  unfold get_azure_sdk_function, getattr_default, no_function_message, getattr.
  by rewrite Hplain, Hbegin, Hname.
Qed.

(** C9, at an operations object that exposes neither [list] nor
    [begin_list]: the error is an [AttributeError], but its message is the
    one of the failed [__name__] lookup and names neither candidate. *)
Theorem get_azure_sdk_function_bare_client :
  get_azure_sdk_function bare_client "list"
  = Raise (AttributeError
             "'NetworkSecurityGroupsOperations' object has no attribute '__name__'")
  /\ contains "list"
       "'NetworkSecurityGroupsOperations' object has no attribute '__name__'" = false
  /\ contains "begin_list"
       "'NetworkSecurityGroupsOperations' object has no attribute '__name__'" = false.
Proof. by vm_compute. Qed.

(** The client of [open_ports] resolves [create_or_update] through the
    prefixed name and [list] through the plain one. *)
Example get_azure_sdk_function_sdk_client :
  get_azure_sdk_function sdk_client "create_or_update" = Ok (PyOp OpCreateOrUpdate)
  /\ get_azure_sdk_function sdk_client "list" = Ok (PyOp OpList).
Proof. by vm_compute. Qed.

(** When [open_ports] meets such a client the error leaves the call before
    any request to the store. *)
Example open_ports_bare_client :
  open_ports (mkEnv (fun _ => bare_client) (fun _ _ _ => None))
    "c1" ["8000"] (Some config_1) state_1
  = (Raise (AttributeError
              "'NetworkSecurityGroupsOperations' object has no attribute '__name__'"),
     state_1).
Proof. by vm_compute. Qed.

(** The example of the specification, through a whole call. *)
Example open_ports_nsg_A :
  let s := mkState (<["rg-1" := [nsg_A]]> ∅) [] in
  let '(r, s') :=
    open_ports (platform []) "c1" ["8000"; "8001-8010"] (Some config_1) s in
  r = Ok tt
  /\ groups_of (store s') "rg-1"
     = [ mkNSG "nsg-A"
           [ default_allow_ssh;
             mkRule "sky-ports-c1" 101 "Tcp" "Allow" "Inbound" "*" "*" "*"
               ["8000"; "8001-8010"] ] ].
Proof. by vm_compute. Qed.

(** * Further properties *)

(** ** Resolution of operations *)

(** X1.  When both the plain and the prefixed name are there, the plain
    one wins. *)
Theorem get_azure_sdk_function_prefers_plain (client : pyobj)
    (function_name : string) (f g : pyval) :
  py_attrs client !! function_name = Some f ->
  py_attrs client !! ("begin_" +:+ function_name) = Some g ->
  f <> PyNone ->
  get_azure_sdk_function client function_name = Ok f.
Proof.
  intros Hf _ Hnone. unfold get_azure_sdk_function, getattr_default.
  rewrite Hf. destruct f; simpl; congruence.
Qed.

Lemma get_azure_sdk_function_prefers_plain_witness :
  py_attrs both_names_client !! "list" = Some (PyOp OpList)
  /\ py_attrs both_names_client !! ("begin_" +:+ "list") = Some (PyOp OpCreateOrUpdate)
  /\ PyOp OpList <> PyNone
  /\ get_azure_sdk_function both_names_client "list" = Ok (PyOp OpList).
Proof.
  assert (H : PyOp OpList <> PyNone) by discriminate.
  split; [reflexivity|]. split; [reflexivity|]. split; [exact H|].
  exact (get_azure_sdk_function_prefers_plain both_names_client "list"
           (PyOp OpList) (PyOp OpCreateOrUpdate) eq_refl eq_refl H).
Defined.

Lemma get_azure_sdk_function_begin_witness :
  py_attrs sdk_client !! "create_or_update" = None
  /\ py_attrs sdk_client !! ("begin_" +:+ "create_or_update") = Some (PyOp OpCreateOrUpdate)
  /\ PyOp OpCreateOrUpdate <> PyNone
  /\ get_azure_sdk_function sdk_client "create_or_update" = Ok (PyOp OpCreateOrUpdate).
Proof.
  assert (H : PyOp OpCreateOrUpdate <> PyNone) by discriminate.
  split; [reflexivity|]. split; [reflexivity|]. split; [exact H|].
  exact (get_azure_sdk_function_begin sdk_client "create_or_update"
           (PyOp OpCreateOrUpdate) eq_refl eq_refl H).
Defined.

Lemma get_azure_sdk_function_raises (client : pyobj) (function_name : string)
    (e : exn) :
  get_azure_sdk_function client function_name = Raise e ->
  exists msg, e = AttributeError msg.
Proof.
  unfold get_azure_sdk_function, no_function_message, getattr.
  destruct (getattr_default client function_name _); try discriminate.
  destruct (py_attrs client !! "__name__"); intros [= <-]; by eexists.
Qed.

(** X3.  A plain attribute that is there but holds [None] is not a miss
    for [getattr]: the prefixed name is not used, even when it holds an
    operation, and the call raises [AttributeError]. *)
Theorem get_azure_sdk_function_none_attribute (client : pyobj)
    (function_name : string) :
  py_attrs client !! function_name = Some PyNone ->
  exists msg,
    get_azure_sdk_function client function_name = Raise (AttributeError msg).
Proof.
  intros Hf.
  destruct (get_azure_sdk_function client function_name) as [f|e] eqn:Hres.
  - exfalso. revert Hres. unfold get_azure_sdk_function, getattr_default.
    rewrite Hf. by destruct (no_function_message client function_name).
  - destruct (get_azure_sdk_function_raises _ _ _ Hres) as [msg ->].
    by exists msg.
Qed.

Lemma get_azure_sdk_function_none_attribute_witness :
  py_attrs none_valued_client !! "list" = Some PyNone
  /\ py_attrs none_valued_client !! "begin_list" = Some (PyOp OpList)
  /\ exists msg,
       get_azure_sdk_function none_valued_client "list" = Raise (AttributeError msg).
Proof.
  split; [reflexivity|]. split; [reflexivity|].
  exact (get_azure_sdk_function_none_attribute none_valued_client "list" eq_refl).
Defined.

(** X4.  What comes back is never [None]: it is the value of the plain
    attribute, or of the prefixed one when the plain one is missing; and
    the only exception raised is [AttributeError]. *)
Theorem get_azure_sdk_function_sound (client : pyobj) (function_name : string) :
  match get_azure_sdk_function client function_name with
  | Ok f =>
      f <> PyNone
      /\ (py_attrs client !! function_name = Some f
          \/ (py_attrs client !! function_name = None
              /\ py_attrs client !! ("begin_" +:+ function_name) = Some f))
  | Raise e => exists msg, e = AttributeError msg
  end.
Proof.
  destruct (get_azure_sdk_function client function_name) as [f|e] eqn:Hres.
  - revert Hres. unfold get_azure_sdk_function, getattr_default.
    destruct (py_attrs client !! function_name) as [v|].
    + destruct v; [by destruct (no_function_message _ _)| |];
        intros [= <-]; split; (discriminate || by left).
    + destruct (py_attrs client !! ("begin_" +:+ function_name)) as [v|];
        [|by destruct (no_function_message _ _)].
      destruct v; [by destruct (no_function_message _ _)| |];
        intros [= <-]; split; (discriminate || by right).
  - by apply get_azure_sdk_function_raises in Hres.
Qed.

Lemma get_azure_sdk_function_neither_named_witness :
  py_attrs class_client !! "list" = None
  /\ py_attrs class_client !! ("begin_" +:+ "list") = None
  /\ py_attrs class_client !! "__name__" = Some (PyStr "Operations")
  /\ exists msg,
       get_azure_sdk_function class_client "list" = Raise (AttributeError msg)
       /\ contains "list" msg = true
       /\ contains ("begin_" +:+ "list") msg = true.
Proof.
  split; [reflexivity|]. split; [reflexivity|]. split; [reflexivity|].
  exact (get_azure_sdk_function_neither_named class_client "list"
           (PyStr "Operations") eq_refl eq_refl eq_refl).
Defined.

(** ** Failures of [open_ports] before the loop *)

(** X6.  With both keys in the configuration, a client on which
    [create_or_update] or [list] does not resolve makes [open_ports] raise
    [AttributeError] with the state untouched: no request is sent and
    nothing is logged, whatever the other operation resolves to. *)
Theorem open_ports_unresolved_operation (E : env) (cluster_name_on_cloud : string)
    (ports : list string) (config : gmap string string)
    (subscription_id resource_group : string) (s : state) (e : exn) :
  config !! "subscription_id" = Some subscription_id ->
  config !! "resource_group" = Some resource_group ->
  get_azure_sdk_function (network_security_groups E subscription_id)
    "create_or_update" = Raise e
  \/ get_azure_sdk_function (network_security_groups E subscription_id)
       "list" = Raise e ->
  exists msg,
    open_ports E cluster_name_on_cloud ports (Some config) s
    = (Raise (AttributeError msg), s).
Proof.
  intros Hsub Hrg Hfail.
  unfold open_ports, subscript, bind, lift, ret. rewrite Hsub, Hrg. simpl.
  destruct (get_azure_sdk_function (network_security_groups E subscription_id)
              "create_or_update") as [u|e1] eqn:Hupdate.
  - destruct Hfail as [Hfail|Hfail]; [discriminate|]. rewrite Hfail.
    destruct (get_azure_sdk_function_raises _ _ _ Hfail) as [msg ->].
    by exists msg.
  - destruct (get_azure_sdk_function_raises _ _ _ Hupdate) as [msg ->].
    by exists msg.
Qed.

Lemma open_ports_unresolved_operation_witness :
  config_1 !! "subscription_id" = Some "sub-1"
  /\ config_1 !! "resource_group" = Some "rg-1"
  /\ exists msg,
       open_ports (mkEnv (fun _ => bare_client) (fun _ _ _ => None))
         "c1" ["8000"] (Some config_1) state_1
       = (Raise (AttributeError msg), state_1).
Proof.
  split; [reflexivity|]. split; [reflexivity|].
  exact (open_ports_unresolved_operation
           (mkEnv (fun _ => bare_client) (fun _ _ _ => None))
           "c1" ["8000"] config_1 "sub-1" "rg-1" state_1
           (AttributeError
              "'NetworkSecurityGroupsOperations' object has no attribute '__name__'")
           eq_refl eq_refl (or_introl eq_refl)).
Defined.

(** X7.  [subscription_id] is read first: when it is missing the
    [KeyError] is for that key, whatever else the configuration holds or
    lacks, and the state is untouched. *)
Theorem open_ports_subscription_id_first (E : env) (cluster_name_on_cloud : string)
    (ports : list string) (config : gmap string string) (s : state) :
  config !! "subscription_id" = None ->
  open_ports E cluster_name_on_cloud ports (Some config) s
  = (Raise (KeyError "subscription_id"), s).
Proof.
  intros Hsub. unfold open_ports, subscript, bind, raise. by rewrite Hsub.
Qed.

Lemma open_ports_subscription_id_first_witness :
  config_empty !! "subscription_id" = None
  /\ config_empty !! "resource_group" = None
  /\ open_ports (platform []) "c1" ["8000"] (Some config_empty) state_1
     = (Raise (KeyError "subscription_id"), state_1).
Proof.
  split; [reflexivity|]. split; [reflexivity|].
  exact (open_ports_subscription_id_first (platform []) "c1" ["8000"]
           config_empty state_1 eq_refl).
Defined.

(** ** The requests and the warnings of a call *)

Section trace.
Context (E : env) (resource_group rule_name : string) (ports : list string).

Lemma store_requests_events_of (nsg : NSG) :
  store_requests (events_of E resource_group rule_name ports nsg)
  = [StoreCreateOrUpdate resource_group (nsg_name nsg)
       (reconcile_nsg rule_name ports nsg)].
Proof.
  unfold store_requests, events_of. rewrite reconcile_nsg_name. simpl.
  by destruct (http_error _ _ _ _).
Qed.

Lemma warnings_events_of (nsg : NSG) :
  warnings (events_of E resource_group rule_name ports nsg)
  = warning_of E resource_group rule_name ports nsg.
Proof.
  unfold warnings, events_of, warning_of. simpl.
  by destruct (http_error _ _ _ _).
Qed.

Lemma store_requests_app (l1 l2 : list event) :
  store_requests (l1 ++ l2) = store_requests l1 ++ store_requests l2.
Proof. apply List.filter_app. Qed.

Lemma warnings_app (l1 l2 : list event) :
  warnings (l1 ++ l2) = warnings l1 ++ warnings l2.
Proof. apply List.filter_app. Qed.

Lemma store_requests_groups (groups : list NSG) :
  store_requests (concat (map (events_of E resource_group rule_name ports) groups))
  = map (fun nsg => StoreCreateOrUpdate resource_group (nsg_name nsg)
                      (reconcile_nsg rule_name ports nsg)) groups.
Proof.
  induction groups as [|g groups IH]; [done|]. cbn [map concat].
  by rewrite store_requests_app, IH, store_requests_events_of.
Qed.

Lemma warnings_groups (groups : list NSG) :
  warnings (concat (map (events_of E resource_group rule_name ports) groups))
  = concat (map (warning_of E resource_group rule_name ports) groups).
Proof.
  induction groups as [|g groups IH]; [done|]. cbn [map concat].
  by rewrite warnings_app, IH, warnings_events_of.
Qed.

End trace.

(** X8.  A call that gets as far as the loop sends one [list] request
    and then exactly one create-or-update request per listed group, in
    listing order, each addressed to the configured resource group and
    the listed group's own name and carrying the reconciled group,
    whether or not the scan changed anything and whatever the platform
    answered to the requests before. *)
Theorem open_ports_requests (E : env) (cluster_name_on_cloud : string)
    (ports : list string) (config : gmap string string)
    (subscription_id resource_group : string) (s : state) :
  ready E config subscription_id resource_group ->
  NoDup (map nsg_name (groups_of (store s) resource_group)) ->
  exists s' new,
    open_ports E cluster_name_on_cloud ports (Some config) s = (Ok tt, s')
    /\ trace s' = trace s ++ new
    /\ store_requests new
       = StoreList resource_group
         :: map (fun nsg =>
                   StoreCreateOrUpdate resource_group (nsg_name nsg)
                     (reconcile_nsg (rule_name_of cluster_name_on_cloud) ports nsg))
              (groups_of (store s) resource_group).
Proof.
  intros Hready Hnodup.
  destruct (open_ports_run E cluster_name_on_cloud ports config
              subscription_id resource_group s Hready Hnodup)
    as (s' & Hrun & _ & _ & Htrace).
  eexists s', _. split; [done|]. split; [exact Htrace|].
  change (store_requests (StoreList resource_group :: ?l))
    with (StoreList resource_group :: store_requests l).
  by rewrite store_requests_groups.
Qed.

Lemma open_ports_requests_witness :
  ready (platform ["G2"]) config_1 "sub-1" "rg-1"
  /\ NoDup (map nsg_name (groups_of (store state_1) "rg-1"))
  /\ exists s' new,
       open_ports (platform ["G2"]) "c1" ["8000"] (Some config_1) state_1 = (Ok tt, s')
       /\ trace s' = trace state_1 ++ new
       /\ store_requests new
          = StoreList "rg-1"
            :: map (fun nsg =>
                      StoreCreateOrUpdate "rg-1" (nsg_name nsg)
                        (reconcile_nsg (rule_name_of "c1") ["8000"] nsg))
                 (groups_of (store state_1) "rg-1").
Proof.
  split; [exact (ready_platform ["G2"])|]. split; [exact state_1_names|].
  exact (open_ports_requests (platform ["G2"]) "c1" ["8000"] config_1
           "sub-1" "rg-1" state_1 (ready_platform ["G2"]) state_1_names).
Defined.

(** X9.  The warnings a call logs are exactly one per group whose
    request the platform turned down, in listing order, each with the
    ports, the group name and the error; a call whose requests are all
    accepted logs nothing. *)
Theorem open_ports_warnings (E : env) (cluster_name_on_cloud : string)
    (ports : list string) (config : gmap string string)
    (subscription_id resource_group : string) (s : state) :
  ready E config subscription_id resource_group ->
  NoDup (map nsg_name (groups_of (store s) resource_group)) ->
  exists s' new,
    open_ports E cluster_name_on_cloud ports (Some config) s = (Ok tt, s')
    /\ trace s' = trace s ++ new
    /\ warnings new
       = concat (map (warning_of E resource_group
                        (rule_name_of cluster_name_on_cloud) ports)
                   (groups_of (store s) resource_group))
    /\ ((forall group_name body,
           http_error E resource_group group_name body = None) ->
        warnings new = []).
Proof.
  intros Hready Hnodup.
  destruct (open_ports_run E cluster_name_on_cloud ports config
              subscription_id resource_group s Hready Hnodup)
    as (s' & Hrun & _ & _ & Htrace).
  eexists s', _. split; [done|]. split; [exact Htrace|].
  change (warnings (StoreList resource_group :: ?l)) with (warnings l).
  rewrite warnings_groups. split; [done|].
  intros Hok. clear -Hok.
  induction (groups_of (store s) resource_group) as [|g gs IH]; [done|].
  cbn [map concat]. rewrite IH. unfold warning_of. by rewrite Hok.
Qed.

Lemma open_ports_warnings_witness :
  ready (platform ["G2"]) config_1 "sub-1" "rg-1"
  /\ NoDup (map nsg_name (groups_of (store state_1) "rg-1"))
  /\ exists s' new,
       open_ports (platform ["G2"]) "c1" ["8000"] (Some config_1) state_1 = (Ok tt, s')
       /\ trace s' = trace state_1 ++ new
       /\ warnings new
          = concat (map (warning_of (platform ["G2"]) "rg-1" (rule_name_of "c1") ["8000"])
                      (groups_of (store state_1) "rg-1"))
       /\ ((forall group_name body,
              http_error (platform ["G2"]) "rg-1" group_name body = None) ->
           warnings new = []).
Proof.
  split; [exact (ready_platform ["G2"])|]. split; [exact state_1_names|].
  exact (open_ports_warnings (platform ["G2"]) "c1" ["8000"] config_1
           "sub-1" "rg-1" state_1 (ready_platform ["G2"]) state_1_names).
Defined.

(** X10.  A call only writes to groups of the configured resource group,
    under the names they were listed with: afterwards that resource group
    has the same group names in the same order, and every other resource
    group is as it was. *)
Theorem open_ports_frame (E : env) (cluster_name_on_cloud : string)
    (ports : list string) (config : gmap string string)
    (subscription_id resource_group : string) (s : state) :
  ready E config subscription_id resource_group ->
  NoDup (map nsg_name (groups_of (store s) resource_group)) ->
  exists s',
    open_ports E cluster_name_on_cloud ports (Some config) s = (Ok tt, s')
    /\ map nsg_name (groups_of (store s') resource_group)
       = map nsg_name (groups_of (store s) resource_group)
    /\ forall rg, rg <> resource_group -> store s' !! rg = store s !! rg.
Proof.
  intros Hready Hnodup.
  destruct (open_ports_run E cluster_name_on_cloud ports config
              subscription_id resource_group s Hready Hnodup)
    as (s' & Hrun & Hstore & Hrest & _).
  exists s'. split; [done|]. split; [|done].
  rewrite Hstore, map_map. apply map_ext. intros g. apply stored_after_name.
Qed.

Lemma open_ports_frame_witness :
  ready (platform ["G2"]) config_1 "sub-1" "rg-1"
  /\ NoDup (map nsg_name (groups_of (store state_1) "rg-1"))
  /\ exists s',
       open_ports (platform ["G2"]) "c1" ["8000"] (Some config_1) state_1 = (Ok tt, s')
       /\ map nsg_name (groups_of (store s') "rg-1")
          = map nsg_name (groups_of (store state_1) "rg-1")
       /\ forall rg, rg <> "rg-1" -> store s' !! rg = store state_1 !! rg.
Proof.
  split; [exact (ready_platform ["G2"])|]. split; [exact state_1_names|].
  exact (open_ports_frame (platform ["G2"]) "c1" ["8000"] config_1
           "sub-1" "rg-1" state_1 (ready_platform ["G2"]) state_1_names).
Defined.

(** X11.  After a call, every group whose request was accepted holds a
    rule named [sky-ports-<cluster>], and every requested port is among
    the destination ports of the first such rule, behind the ports that
    rule had before. *)
Theorem open_ports_opens_ports (E : env) (cluster_name_on_cloud : string)
    (ports : list string) (config : gmap string string)
    (subscription_id resource_group : string) (s : state) :
  ready E config subscription_id resource_group ->
  NoDup (map nsg_name (groups_of (store s) resource_group)) ->
  exists s',
    open_ports E cluster_name_on_cloud ports (Some config) s = (Ok tt, s')
    /\ forall (i : nat) (nsg : NSG),
         groups_of (store s) resource_group !! i = Some nsg ->
         let rule_name := rule_name_of cluster_name_on_cloud in
         let nsg' := reconcile_nsg rule_name ports nsg in
         http_error E resource_group (nsg_name nsg') nsg' = None ->
         exists stored r,
           groups_of (store s') resource_group !! i = Some stored
           /\ find_rule rule_name (security_rules stored) = Some r
           /\ name r = rule_name
           /\ destination_port_ranges r = ports_before rule_name nsg ++ ports
           /\ forall p, p ∈ ports -> p ∈ destination_port_ranges r.
Proof.
  intros Hready Hnodup.
  destruct (open_ports_run E cluster_name_on_cloud ports config
              subscription_id resource_group s Hready Hnodup)
    as (s' & Hrun & Hstore & _ & _).
  exists s'. split; [done|]. intros i nsg Hi rule_name nsg' Hok.
  destruct (find_rule_after_reconcile rule_name ports nsg)
    as (pre & r & post & Hrules & Hpre & Hr & Hports).
  exists nsg', r. split.
  - rewrite Hstore, lookup_map, Hi. simpl. unfold stored_after.
    fold rule_name nsg'. by rewrite Hok.
  - split; [subst nsg'; rewrite Hrules; by apply find_rule_first|].
    split; [done|]. split; [done|].
    intros p Hp. rewrite Hports. apply elem_of_app. by right.
Qed.

Lemma open_ports_opens_ports_witness :
  ready (platform ["G2"]) config_1 "sub-1" "rg-1"
  /\ NoDup (map nsg_name (groups_of (store state_1) "rg-1"))
  /\ exists s',
       open_ports (platform ["G2"]) "c1" ["8000"] (Some config_1) state_1 = (Ok tt, s')
       /\ forall (i : nat) (nsg : NSG),
            groups_of (store state_1) "rg-1" !! i = Some nsg ->
            let rule_name := rule_name_of "c1" in
            let nsg' := reconcile_nsg rule_name ["8000"] nsg in
            http_error (platform ["G2"]) "rg-1" (nsg_name nsg') nsg' = None ->
            exists stored r,
              groups_of (store s') "rg-1" !! i = Some stored
              /\ find_rule rule_name (security_rules stored) = Some r
              /\ name r = rule_name
              /\ destination_port_ranges r = ports_before rule_name nsg ++ ["8000"]
              /\ forall p, p ∈ ["8000"] -> p ∈ destination_port_ranges r.
Proof.
  split; [exact (ready_platform ["G2"])|]. split; [exact state_1_names|].
  exact (open_ports_opens_ports (platform ["G2"]) "c1" ["8000"] config_1
           "sub-1" "rg-1" state_1 (ready_platform ["G2"]) state_1_names).
Defined.

(** ** What the scan of one group composes to and leaves alone *)

Lemma extend_ports_app (r : SecurityRule) (ports more : list string) :
  extend_ports (extend_ports r ports) more = extend_ports r (ports ++ more).
Proof. unfold extend_ports. simpl. by rewrite app_assoc. Qed.

(** X12.  Scanning a group for some ports and then for more gives the
    group that one scan for all of them gives: the ports accumulate on
    the one rule, and a rule created by the first scan keeps its
    priority. *)
Theorem reconcile_nsg_compose (rule_name : string) (ports more : list string)
    (nsg : NSG) :
  reconcile_nsg rule_name more (reconcile_nsg rule_name ports nsg)
  = reconcile_nsg rule_name (ports ++ more) nsg.
Proof.
  destruct (first_named rule_name (security_rules nsg))
    as [Hno|(pre & r & post & Hrules & Hpre & Hr)].
  - rewrite !(reconcile_nsg_absent _ _ _ Hno).
    erewrite reconcile_nsg_present; [|reflexivity|exact Hno|reflexivity].
    done.
  - rewrite !(reconcile_nsg_present _ _ _ _ _ _ Hrules Hpre Hr).
    erewrite reconcile_nsg_present; [|reflexivity|exact Hpre|exact Hr].
    simpl. by rewrite extend_ports_app.
Qed.

(** X13.  A scan adds one rule when the group has no rule of the name
    and none otherwise; a second scan never adds one. *)
Theorem reconcile_nsg_rule_count (rule_name : string) (ports more : list string)
    (nsg : NSG) :
  length (security_rules (reconcile_nsg rule_name ports nsg))
  = (length (security_rules nsg)
     + match find_rule rule_name (security_rules nsg) with
       | Some _ => 0
       | None => 1
       end)%nat
  /\ length (security_rules
               (reconcile_nsg rule_name more (reconcile_nsg rule_name ports nsg)))
     = length (security_rules (reconcile_nsg rule_name ports nsg)).
Proof.
  destruct (first_named rule_name (security_rules nsg))
    as [Hno|(pre & r & post & Hrules & Hpre & Hr)].
  - rewrite (reconcile_nsg_absent _ _ _ Hno), (find_rule_absent _ _ Hno).
    erewrite reconcile_nsg_present; [|reflexivity|exact Hno|reflexivity].
    simpl. by rewrite !length_app.
  - rewrite (reconcile_nsg_present _ _ _ _ _ _ Hrules Hpre Hr), Hrules,
      (find_rule_first _ _ _ _ Hpre Hr).
    erewrite reconcile_nsg_present; [|reflexivity|exact Hpre|exact Hr].
    simpl. rewrite !length_app. simpl. lia.
Qed.

Lemma grown_refl (r : SecurityRule) : grown r r.
Proof. unfold grown. by repeat split. Qed.

Lemma grown_extend (r : SecurityRule) (ports : list string) :
  grown r (extend_ports r ports).
Proof. unfold grown. simpl. repeat split. by apply prefix_app_r. Qed.

(** X14.  A scan never removes, moves or rewrites a rule of the group:
    every rule is found again at its index with the same name, priority,
    protocol, access, direction and address and source-port attributes,
    and with its destination ports still in front of whatever was
    appended. *)
Theorem reconcile_nsg_keeps_rules (rule_name : string) (ports : list string)
    (nsg : NSG) (i : nat) (r : SecurityRule) :
  security_rules nsg !! i = Some r ->
  exists r',
    security_rules (reconcile_nsg rule_name ports nsg) !! i = Some r'
    /\ grown r r'.
Proof.
  intros Hi.
  destruct (first_named rule_name (security_rules nsg))
    as [Hno|(pre & r0 & post & Hrules & Hpre & Hr)].
  - rewrite (reconcile_nsg_absent _ _ _ Hno). simpl.
    exists r. split; [by apply lookup_app_l_Some|apply grown_refl].
  - rewrite (reconcile_nsg_present _ _ _ _ _ _ Hrules Hpre Hr). simpl.
    rewrite Hrules in Hi. apply lookup_app_Some in Hi as [Hi|[Hlen Hi]].
    + exists r. split; [by apply lookup_app_l_Some|apply grown_refl].
    + destruct (i - length pre)%nat as [|k] eqn:Hk; simpl in Hi.
      * injection Hi as <-. exists (extend_ports r0 ports).
        split; [|apply grown_extend].
        apply lookup_app_Some. right. split; [done|]. by rewrite Hk.
      * exists r. split; [|apply grown_refl].
        apply lookup_app_Some. right. split; [done|]. by rewrite Hk.
Qed.

Lemma reconcile_nsg_keeps_rules_witness :
  security_rules nsg_outbound !! 1%nat = Some outbound_c1
  /\ exists r',
       security_rules (reconcile_nsg "sky-ports-c1" ["8000"] nsg_outbound) !! 1%nat
       = Some r'
       /\ grown outbound_c1 r'.
Proof.
  split; [reflexivity|].
  exact (reconcile_nsg_keeps_rules "sky-ports-c1" ["8000"] nsg_outbound 1
           outbound_c1 eq_refl).
Defined.

Lemma rule_name_of_inj (c1 c2 : string) :
  rule_name_of c1 = rule_name_of c2 -> c1 = c2.
Proof. unfold rule_name_of. cbn. by intros [= ?]. Qed.

Lemma find_rule_app_other (rule_name : string) (rules : list SecurityRule)
    (r : SecurityRule) :
  name r <> rule_name ->
  find_rule rule_name (rules ++ [r]) = find_rule rule_name rules.
Proof.
  intros Hr. unfold find_rule. induction rules as [|q rules IH]; simpl.
  - apply String.eqb_neq in Hr. by rewrite Hr.
  - by destruct (String.eqb (name q) rule_name).
Qed.

Lemma find_rule_replace_other (rule_name : string) (pre post : list SecurityRule)
    (r r' : SecurityRule) :
  name r <> rule_name -> name r' = name r ->
  find_rule rule_name (pre ++ r' :: post) = find_rule rule_name (pre ++ r :: post).
Proof.
  intros Hr Hr'. unfold find_rule. induction pre as [|q pre IH]; simpl.
  - rewrite Hr'. apply String.eqb_neq in Hr. by rewrite Hr.
  - by destruct (String.eqb (name q) rule_name).
Qed.

(** X15.  Opening ports for one cluster leaves the rule of every other
    cluster in the group as it was. *)
Theorem reconcile_nsg_other_cluster (cluster other : string) (ports : list string)
    (nsg : NSG) :
  other <> cluster ->
  find_rule (rule_name_of other)
    (security_rules (reconcile_nsg (rule_name_of cluster) ports nsg))
  = find_rule (rule_name_of other) (security_rules nsg).
Proof.
  intros Hne.
  assert (Hnames : rule_name_of cluster <> rule_name_of other).
  { intros Heq. apply Hne. symmetry. by apply rule_name_of_inj. }
  destruct (first_named (rule_name_of cluster) (security_rules nsg))
    as [Hno|(pre & r & post & Hrules & Hpre & Hr)].
  - rewrite (reconcile_nsg_absent _ _ _ Hno). simpl.
    by apply find_rule_app_other.
  - rewrite (reconcile_nsg_present _ _ _ _ _ _ Hrules Hpre Hr), Hrules. simpl.
    apply find_rule_replace_other; [by rewrite Hr|done].
Qed.

Lemma reconcile_nsg_other_cluster_witness :
  "c1" <> "c2"
  /\ find_rule (rule_name_of "c1")
       (security_rules (reconcile_nsg (rule_name_of "c2") ["9000"] nsg_outbound))
     = find_rule (rule_name_of "c1") (security_rules nsg_outbound).
Proof.
  assert (H : "c1" <> "c2") by discriminate.
  split; [exact H|].
  exact (reconcile_nsg_other_cluster "c2" "c1" ["9000"] nsg_outbound H).
Defined.

Lemma contains_refl (s : string) : contains s s = true.
Proof.
  assert (Hprefix : String.prefix s s = true).
  { induction s as [|c s IH]; [done|]. simpl. by destruct (ascii_dec c c). }
  destruct s; cbn [contains]; by rewrite Hprefix.
Qed.

(** X16.  The warning logged for a rejected group spells out the ports as
    Python prints the list, the name of the group and the text of the
    error. *)
Theorem warning_message_mentions (ports : list string) (nsg : NSG) (e : string) :
  contains (str_list ports) (warning_message ports nsg e) = true
  /\ contains (nsg_name nsg) (warning_message ports nsg e) = true
  /\ contains e (warning_message ports nsg e) = true.
Proof.
  unfold warning_message. repeat split.
  - apply contains_later, contains_here.
  - do 3 apply contains_later. apply contains_here.
  - do 5 apply contains_later. apply contains_refl.
Qed.

Lemma rules_named_none (rule_name : string) (rules : list SecurityRule) :
  Forall (fun r => name r <> rule_name) rules ->
  rules_named rule_name rules = [].
Proof.
  intros Hno. unfold rules_named. induction rules as [|q rules IH]; [done|].
  apply Forall_cons in Hno as [Hq Hno]. simpl.
  apply String.eqb_neq in Hq. rewrite Hq. by apply IH.
Qed.

(** X17.  A scan leaves the group with exactly one rule of the name when
    it had none, and with as many as it had otherwise: the loop never
    puts a second rule of a cluster into a group. *)
Theorem reconcile_nsg_one_rule_per_cluster (rule_name : string)
    (ports : list string) (nsg : NSG) :
  length (rules_named rule_name (security_rules (reconcile_nsg rule_name ports nsg)))
  = Nat.max 1 (length (rules_named rule_name (security_rules nsg))).
Proof.
  destruct (first_named rule_name (security_rules nsg))
    as [Hno|(pre & r & post & Hrules & Hpre & Hr)].
  - rewrite (reconcile_nsg_absent _ _ _ Hno). simpl.
    unfold rules_named at 1. rewrite List.filter_app.
    fold (rules_named rule_name (security_rules nsg)).
    rewrite (rules_named_none _ _ Hno). simpl. by rewrite String.eqb_refl.
  - rewrite (reconcile_nsg_present _ _ _ _ _ _ Hrules Hpre Hr), Hrules. simpl.
    unfold rules_named. rewrite !List.filter_app. simpl.
    apply String.eqb_eq in Hr. rewrite Hr. rewrite !length_app. simpl. lia.
Qed.
